(** * Inventory-System: the document-store adapter, the product catalog
      service, login and the access guard, embedded and verified.

    Sources embedded here:
    - [src/firestore/firestore.service.ts]  (FirestoreService)
    - [src/product/product.service.ts]      (ProductService)
    - [src/product/dto/*.dto.ts]            (the DTO classes)
    - [src/auth/auth.service.ts]            (AuthService)
    - [src/auth/guards/global-auth.guard.ts] (GlobalAuthGuard)
    - [src/logging/logging.service.ts]      (LoggingService)
    - [src/http-filter/http-filter.filter.ts] (HttpFilterFilter)

    Conventions of the embedding:
    - a JS object used as a field/value map is a [gmap string Value];
      object spread [{...a, ...b}] is the left-biased union [b ∪ a]
      (the later spread wins);
    - a JS [number] is a [Z]: pages, page sizes, prices and stocks are
      integers ([@IsInt] on the DTOs), and price bounds are taken as
      integers too;
    - a JS string is a Rocq [string] holding its UTF-8 bytes; the document
      store orders strings by their UTF-8 bytes, which is [String.compare];
    - [async] code is a state-and-exception monad over the store; every call
      that reaches the store appends a [StoreCall] to a log, so that "no store
      call was made" and "no write was attempted" are statements about the log;
    - the store code and the login are first modelled without their log
      lines, which have no effect on results; the logging service, the
      exception filter and the log lines of the login come after them, over
      a host of files, console and clock. *)

From Stdlib Require Import ZArith String Ascii List Bool Lia Sorted Permutation.
From stdpp Require Import base option list gmap strings sorting.

Local Open Scope string_scope.

(** ** Values and documents of the store *)

(** The field values the catalog stores: numbers and strings. *)
Inductive Value :=
  | VNum (n : Z)
  | VStr (s : string).

#[global] Instance Value_eq_dec : EqDecision Value.
Proof. solve_decision. Defined.

(** The store first orders values by type (numbers before strings), then
    by value. *)
Definition Value_compare (a b : Value) : comparison :=
  match a, b with
  | VNum x, VNum y => Z.compare x y
  | VNum _, VStr _ => Lt
  | VStr _, VNum _ => Gt
  | VStr x, VStr y => String.compare x y
  end.

Definition same_type (a b : Value) : bool :=
  match a, b with
  | VNum _, VNum _ | VStr _, VStr _ => true
  | _, _ => false
  end.

(** A document's data: a flat field/value map. *)
Abbreviation Doc := (gmap string Value).
(** A collection: documents by their store-assigned id. *)
Abbreviation Collection := (gmap string (gmap string Value)).

(** ** The document store (external system)

    The store is the external collaborator of the adapter.  It is modelled
    as the adapter needs it: collections of documents, queries built from
    [where] clauses, one [orderBy], [limit] and [offset], and the
    by-id document operations.  The store is taken to be available: its
    calls do not fail for transport reasons. *)

Inductive WhereOp := OpGe | OpLe | OpEq.

(** The direction strings ['asc'] and ['desc'] given to [orderBy]. *)
Inductive Direction := Asc | Desc.

Record Where := mkWhere {
  w_field : string;
  w_op : WhereOp;
  w_value : Value }.

Record Query := mkQuery {
  qry_collection : string;
  qry_where : list Where;
  qry_orderBy : option (string * Direction);
  qry_limit : option Z;
  qry_offset : option Z }.

(** [db.collection(c)] as the base query. *)
Definition collectionQuery (c : string) : Query :=
  mkQuery c [] None None None.

Definition Query_where (q : Query) (f : string) (op : WhereOp) (v : Value) : Query :=
  mkQuery (qry_collection q) (qry_where q ++ [mkWhere f op v])
          (qry_orderBy q) (qry_limit q) (qry_offset q).

Definition Query_orderBy (q : Query) (f : string) (d : Direction) : Query :=
  mkQuery (qry_collection q) (qry_where q) (Some (f, d))
          (qry_limit q) (qry_offset q).

Definition Query_limit (q : Query) (n : Z) : Query :=
  mkQuery (qry_collection q) (qry_where q) (qry_orderBy q)
          (Some n) (qry_offset q).

Definition Query_offset (q : Query) (n : Z) : Query :=
  mkQuery (qry_collection q) (qry_where q) (qry_orderBy q)
          (qry_limit q) (Some n).

Definition is_Lt (c : comparison) : bool :=
  match c with Lt => true | _ => false end.
Definition is_Gt (c : comparison) : bool :=
  match c with Gt => true | _ => false end.

(** A comparison of a stored value [x] with an operand [v]: range
    operators only relate values of one type; a document without the field
    matches no clause on it. *)
Definition op_holds (op : WhereOp) (x v : Value) : bool :=
  match op with
  | OpEq => bool_decide (x = v)
  | OpGe => same_type x v && negb (is_Lt (Value_compare x v))
  | OpLe => same_type x v && negb (is_Gt (Value_compare x v))
  end.

Definition where_holds (d : Doc) (w : Where) : bool :=
  match d !! w_field w with
  | None => false
  | Some x => op_holds (w_op w) x (w_value w)
  end.

Definition wheres_hold (ws : list Where) (d : Doc) : bool :=
  forallb (where_holds d) ws.

(** The order of a result set.  Entries are (id, data) pairs.  With an
    [orderBy] the key is the field's value and ties fall back to the
    document id in the same direction; a missing field sorts first (and is
    excluded from an ordered result set anyway, see [run_query]). *)
Definition key_compare (f : string) (x y : string * Doc) : comparison :=
  match x.2 !! f, y.2 !! f with
  | Some a, Some b =>
      match Value_compare a b with
      | Eq => String.compare x.1 y.1
      | c => c
      end
  | None, Some _ => Lt
  | Some _, None => Gt
  | None, None => String.compare x.1 y.1
  end.

Definition order_leb (ord : option (string * Direction)) (x y : string * Doc) : bool :=
  match ord with
  | None => negb (is_Gt (String.compare x.1 y.1))
  | Some (f, Asc) => negb (is_Gt (key_compare f x y))
  | Some (f, Desc) => negb (is_Gt (key_compare f y x))
  end.

Definition order_le (ord : option (string * Direction)) : relation (string * Doc) :=
  λ x y, Is_true (order_leb ord x y).

#[global] Instance order_le_dec ord : RelDecision (order_le ord).
Proof. intros x y. unfold order_le. apply _. Defined.

Definition has_field (f : string) (x : string * Doc) : bool :=
  bool_decide (is_Some (x.2 !! f)).

(** The result set of a query over a collection: filter by every [where]
    clause, order (an [orderBy] keeps only the documents that have the
    field), skip [offset], take [limit]. *)
Definition run_query (c : Collection) (q : Query) : list (string * Doc) :=
  let matching := List.filter (λ x, wheres_hold (qry_where q) x.2) (map_to_list c) in
  let ordered :=
    match qry_orderBy q with
    | None => merge_sort (order_le None) matching
    | Some (f, d) =>
        merge_sort (order_le (Some (f, d))) (List.filter (has_field f) matching)
    end in
  let skipped :=
    match qry_offset q with
    | None => ordered
    | Some n => drop (Z.to_nat n) ordered
    end in
  match qry_limit q with
  | None => skipped
  | Some n => take (Z.to_nat n) skipped
  end.

(** Every request that reaches the store. *)
Inductive StoreCall :=
  | QueryGet (q : Query)
  | DocGet (collection id : string)
  | CollectionAdd (collection : string) (data : Doc)
  | DocUpdate (collection id : string) (data : Doc)
  | DocDelete (collection id : string).

Definition is_write (c : StoreCall) : bool :=
  match c with
  | QueryGet _ | DocGet _ _ => false
  | CollectionAdd _ _ | DocUpdate _ _ _ | DocDelete _ _ => true
  end.

Record Firestore := mkFirestore {
  fs_collections : gmap string Collection;
  fs_log : list StoreCall }.

Definition collection_of (fs : Firestore) (c : string) : Collection :=
  default ∅ (fs_collections fs !! c).

(** ** Exceptions and the monad of asynchronous store code *)

Inductive Exception :=
  | BadRequestException (message : string)
  | NotFoundException (message : string)
  | InternalServerErrorException (message : string)
  | UnauthorizedException (message : string)
  | ForbiddenException (message : string)
  | Error (message : string).

Definition message (e : Exception) : string :=
  match e with
  | BadRequestException m | NotFoundException m
  | InternalServerErrorException m | UnauthorizedException m
  | ForbiddenException m | Error m => m
  end.

Inductive Result (A : Type) :=
  | Ok (a : A)
  | Throw (e : Exception).
Arguments Ok {A} a.
Arguments Throw {A} e.

Definition Async (A : Type) : Type := Firestore → Result A * Firestore.

Definition ret {A} (a : A) : Async A := λ fs, (Ok a, fs).
Definition throw {A} (e : Exception) : Async A := λ fs, (Throw e, fs).
Definition bind {A B} (m : Async A) (k : A → Async B) : Async B :=
  λ fs, match m fs with
        | (Ok a, fs') => k a fs'
        | (Throw e, fs') => (Throw e, fs')
        end.
(** [try { body } catch (error) { handler }]: what the body wrote before
    it threw stays written. *)
Definition try_catch {A} (body : Async A) (handler : Exception → Async A) : Async A :=
  λ fs, match body fs with
        | (Ok a, fs') => (Ok a, fs')
        | (Throw e, fs') => handler e fs'
        end.

Notation "'let*' x ':=' m 'in' k" := (bind m (λ x, k))
  (at level 10, x name, m at level 100, k at level 200).

Definition store_call (c : StoreCall) : Async unit :=
  λ fs, (Ok tt, mkFirestore (fs_collections fs) (fs_log fs ++ [c])).
Definition read_collection (c : string) : Async Collection :=
  λ fs, (Ok (collection_of fs c), fs).
Definition write_collection (c : string) (docs : Collection) : Async unit :=
  λ fs, (Ok tt, mkFirestore (<[c := docs]> (fs_collections fs)) (fs_log fs)).

(** ** FirestoreService and ProductService *)

(** What the code takes from its platform: the language's
    [String.prototype.toLowerCase] and the id the store assigns to a
    document added to a collection.  Nothing is assumed of either. *)
Class Platform := mkPlatform {
  toLowerCase : string → string;
  autoId : Collection → string }.

(** The enum [SortOrder] of query-product.dto.ts. *)
Inductive SortOrder := ASC | DESC.

Section Catalog.

Context `{!Platform}.

(** *** The SDK calls the adapter makes *)

(** [await query.get()] *)
Definition Query_get (q : Query) : Async (list (string * Doc)) :=
  let* _ := store_call (QueryGet q) in
  let* c := read_collection (qry_collection q) in
  ret (run_query c q).

(** [await db.collection(c).doc(id).get()]; [None] is a snapshot whose
    [exists] is false. *)
Definition DocumentReference_get (c id : string) : Async (option Doc) :=
  let* _ := store_call (DocGet c id) in
  let* docs := read_collection c in
  ret (docs !! id).

(** [await db.collection(c).add(data)] *)
Definition CollectionReference_add (c : string) (data : Doc) : Async string :=
  let* _ := store_call (CollectionAdd c data) in
  let* docs := read_collection c in
  let id := autoId docs in
  let* _ := write_collection c (<[id := data]> docs) in
  ret id.

(** [await db.collection(c).doc(id).update(data)]: the fields of [data]
    overwrite, the other fields stay; the store refuses to update a
    document that does not exist. *)
Definition DocumentReference_update (c id : string) (data : Doc) : Async unit :=
  let* _ := store_call (DocUpdate c id data) in
  let* docs := read_collection c in
  match docs !! id with
  | None => throw (Error ("No document to update: " ++ id))
  | Some old => write_collection c (<[id := data ∪ old]> docs)
  end.

(** [await db.collection(c).doc(id).delete()] *)
Definition DocumentReference_delete (c id : string) : Async unit :=
  let* _ := store_call (DocDelete c id) in
  let* docs := read_collection c in
  write_collection c (delete id docs).

(** [{ id: doc.id, ...doc.data() }] *)
Definition withId (x : string * Doc) : Doc := x.2 ∪ {[ "id" := VStr x.1 ]}.

(** *** FirestoreService *)

(** The [options] argument of [getCollectionWithOptions]; [filters] is the
    object's entries in insertion order, a value [None] standing for
    [undefined] or [null]. *)
Record QueryOptions := mkQueryOptions {
  opt_page : option Z;
  opt_limit : option Z;
  opt_filters : option (list (string * option Value));
  opt_sortBy : option string;
  opt_sortOrder : option SortOrder }.

Record QueryPage := mkQueryPage {
  qp_items : list Doc;
  qp_total : Z }.

(** The character ['\uf8ff'], as its three UTF-8 bytes. *)
Definition uf8ff : string :=
  String (ascii_of_nat 239) (String (ascii_of_nat 163) (String (ascii_of_nat 191) "")).

Definition is_string (v : Value) : bool :=
  match v with VStr _ => true | VNum _ => false end.
Definition is_number (v : Value) : bool :=
  match v with VNum _ => true | VStr _ => false end.
(** [value.toLowerCase()] on a value known to be a string *)
Definition Value_toLowerCase (v : Value) : string :=
  match v with VStr s => toLowerCase s | VNum _ => "" end.

(** The body of the [forEach] over [Object.entries(filters)]
    (firestore.service.ts, lines 87-104). *)
Definition applyFilter (query : Query) (entry : string * option Value) : Query :=
  let '(key, value) := entry in
  match value with
  | None => query
  | Some value =>
      if bool_decide (key = "name") && is_string value then
        let lowerCaseValue := Value_toLowerCase value in
        Query_where
          (Query_where query "nameSearch" OpGe (VStr lowerCaseValue))
          "nameSearch" OpLe (VStr (lowerCaseValue ++ uf8ff))
      else if bool_decide (key = "minPrice") && is_number value then
        Query_where query "price" OpGe value
      else if bool_decide (key = "maxPrice") && is_number value then
        Query_where query "price" OpLe value
      else
        Query_where query key OpEq value
  end.

Definition invalidPagination : string :=
  "Invalid pagination parameters. Page must be >= 1 and limit must be between 1 and 100.".

(** The query after the [forEach] over the filters. *)
Definition filteredQuery (collection : string) (filters : list (string * option Value)) : Query :=
  fold_left applyFilter filters (collectionQuery collection).

(** A string in a condition: the empty string is falsy. *)
Definition truthy (s : string) : bool := negb (bool_decide (s = "")).

(** firestore.service.ts, lines 57-147. *)
Definition getCollectionWithOptions (collection : string) (options : QueryOptions)
  : Async QueryPage :=
  try_catch
    (let page := default 1%Z (opt_page options) in
     let limit := default 10%Z (opt_limit options) in
     let filters := default [] (opt_filters options) in
     let sortBy := default "name" (opt_sortBy options) in
     let sortOrder := default ASC (opt_sortOrder options) in
     if (page <? 1)%Z || (limit <? 1)%Z || (limit >? 100)%Z then
       throw (BadRequestException invalidPagination)
     else
       let query := filteredQuery collection filters in
       let* countSnapshot := Query_get query in
       let total := Z.of_nat (length countSnapshot) in
       let query :=
         if truthy sortBy then
           Query_orderBy query sortBy
             (match sortOrder with DESC => Desc | ASC => Asc end)
         else query in
       let offset := ((page - 1) * limit)%Z in
       let query := Query_limit query limit in
       let query := if (offset >? 0)%Z then Query_offset query offset else query in
       let* snapshot := Query_get query in
       let items := withId <$> snapshot in
       ret (mkQueryPage items total))
    (λ error,
       match error with
       | BadRequestException _ => throw error
       | _ => throw (InternalServerErrorException
                       ("Database query error: " ++ message error))
       end).

(** firestore.service.ts, lines 156-170. *)
Definition addDocument (collection : string) (data : Doc) : Async string :=
  try_catch
    (let* docRef := CollectionReference_add collection data in
     ret docRef)
    (λ error, throw (InternalServerErrorException ("Database error: " ++ message error))).

(** firestore.service.ts, lines 179-198.  Returns [None] for the [null] of
    a document that does not exist. *)
Definition getDocument (collection id : string) : Async (option Doc) :=
  try_catch
    (let* doc := DocumentReference_get collection id in
     match doc with
     | None => ret None
     | Some data => ret (Some (withId (id, data)))
     end)
    (λ error, throw (InternalServerErrorException ("Database error: " ++ message error))).

(** firestore.service.ts, lines 208-234. *)
Definition updateDocument (collection id : string) (data : Doc) : Async unit :=
  try_catch
    (let* docSnapshot := DocumentReference_get collection id in
     match docSnapshot with
     | None =>
         throw (NotFoundException
           ("Document with ID " ++ id ++ " not found in collection " ++ collection))
     | Some _ => DocumentReference_update collection id data
     end)
    (λ error,
       match error with
       | NotFoundException _ => throw error
       | _ => throw (InternalServerErrorException ("Database error: " ++ message error))
       end).

(** firestore.service.ts, lines 243-269. *)
Definition deleteDocument (collection id : string) : Async unit :=
  try_catch
    (let* docSnapshot := DocumentReference_get collection id in
     match docSnapshot with
     | None =>
         throw (NotFoundException
           ("Document with ID " ++ id ++ " not found in collection " ++ collection))
     | Some _ => DocumentReference_delete collection id
     end)
    (λ error,
       match error with
       | NotFoundException _ => throw error
       | _ => throw (InternalServerErrorException ("Database error: " ++ message error))
       end).

(** *** The DTO classes *)

(** create-product.dto.ts.  [nameSearch?] is declared on the class (without
    a validation decorator); the other fields are required. *)
Record CreateProductDto := mkCreateProductDto {
  c_nameSearch : option string;
  c_name : string;
  c_description : string;
  c_price : Z;
  c_stock : Z;
  c_category : string }.

(** update-product.dto.ts: [PartialType(CreateProductDto)], every field
    of the class made optional.  A field is absent or holds a value of its
    declared type; a [null] in its place is not represented. *)
Record UpdateProductDto := mkUpdateProductDto {
  u_nameSearch : option string;
  u_name : option string;
  u_description : option string;
  u_price : option Z;
  u_stock : option Z;
  u_category : option string }.

(** query-product.dto.ts *)
Record QueryProductDto := mkQueryProductDto {
  q_page : option Z;
  q_limit : option Z;
  q_name : option string;
  q_category : option string;
  q_minPrice : option Z;
  q_maxPrice : option Z;
  q_sortBy : option string;
  q_sortOrder : option SortOrder }.

Record PaginatedProductsResponseDto := mkPaginatedProductsResponseDto {
  items : list Doc;
  total : Z;
  page : Z;
  limit : Z;
  totalPages : Z;
  hasNextPage : bool;
  hasPreviousPage : bool }.

(** [{ id, deleted: true }] *)
Record DeleteResult := mkDeleteResult {
  del_id : string;
  deleted : bool }.

(** [obj[k] = v] when the property is present on the source object. *)
Definition set_opt (k : string) (v : option Value) (obj : Doc) : Doc :=
  match v with
  | Some v => <[k := v]> obj
  | None => obj
  end.

(** [{ ...createProductDto }] *)
Definition spreadCreate (dto : CreateProductDto) : Doc :=
  set_opt "nameSearch" (VStr <$> c_nameSearch dto)
    (<["name" := VStr (c_name dto)]>
    (<["description" := VStr (c_description dto)]>
    (<["price" := VNum (c_price dto)]>
    (<["stock" := VNum (c_stock dto)]>
    (<["category" := VStr (c_category dto)]> ∅))))).

(** [{ ...updateProductDto }] *)
Definition spreadUpdate (dto : UpdateProductDto) : Doc :=
  set_opt "nameSearch" (VStr <$> u_nameSearch dto)
    (set_opt "name" (VStr <$> u_name dto)
    (set_opt "description" (VStr <$> u_description dto)
    (set_opt "price" (VNum <$> u_price dto)
    (set_opt "stock" (VNum <$> u_stock dto)
    (set_opt "category" (VStr <$> u_category dto) ∅))))).

(** An optional string in a condition: [undefined] and [""] are falsy. *)
Definition truthy_opt (s : option string) : bool :=
  match s with
  | Some s => truthy s
  | None => false
  end.

(** [x !== undefined] *)
Definition is_defined {A} (x : option A) : bool :=
  match x with
  | Some _ => true
  | None => false
  end.

(** [Math.ceil(a / b)] on integers. *)
Definition Math_ceil_div (a b : Z) : Z := (- ((- a) / b))%Z.

(** *** ProductService *)

(** product.service.ts, lines 17-33. *)
Definition create (createProductDto : CreateProductDto) : Async Doc :=
  try_catch
    (let dataWithSearchFields :=
       <["nameSearch" := VStr (toLowerCase (c_name createProductDto))]>
         (spreadCreate createProductDto) in
     let* productId := addDocument "products" dataWithSearchFields in
     ret (spreadCreate createProductDto ∪ {[ "id" := VStr productId ]}))
    (λ error, throw error).

(** The [filters] object that [findAll] builds, as its entries
    (product.service.ts, lines 42-46). *)
Definition findAll_filters (query : QueryProductDto) : list (string * option Value) :=
  let filters : list (string * option Value) := [] in
  let filters :=
    if truthy_opt (q_name query)
    then (filters ++ [("name", VStr <$> q_name query)])%list else filters in
  let filters :=
    if truthy_opt (q_category query)
    then (filters ++ [("category", VStr <$> q_category query)])%list else filters in
  let filters :=
    if is_defined (q_minPrice query)
    then (filters ++ [("minPrice", VNum <$> q_minPrice query)])%list else filters in
  let filters :=
    if is_defined (q_maxPrice query)
    then (filters ++ [("maxPrice", VNum <$> q_maxPrice query)])%list else filters in
  filters.

(** product.service.ts, lines 35-76. *)
Definition findAll (query : QueryProductDto) : Async PaginatedProductsResponseDto :=
  try_catch
    (let page := default 1%Z (q_page query) in
     let limit := default 10%Z (q_limit query) in
     let filters := findAll_filters query in
     let* r := getCollectionWithOptions "products"
                 (mkQueryOptions (Some page) (Some limit) (Some filters)
                                 (q_sortBy query) (q_sortOrder query)) in
     let totalPages := Math_ceil_div (qp_total r) limit in
     ret (mkPaginatedProductsResponseDto
            (qp_items r) (qp_total r) page limit totalPages
            (page <? totalPages)%Z (page >? 1)%Z))
    (λ error, throw error).

(** product.service.ts, lines 78-95. *)
Definition findOne (id : string) : Async Doc :=
  try_catch
    (let* product := getDocument "products" id in
     match product with
     | None => throw (NotFoundException ("Product with ID " ++ id ++ " not found"))
     | Some product => ret product
     end)
    (λ error,
       match error with
       | NotFoundException _ => throw error
       | _ => throw error
       end).

(** product.service.ts, lines 97-124. *)
Definition update (id : string) (updateProductDto : UpdateProductDto) : Async Doc :=
  try_catch
    (let* product := getDocument "products" id in
     match product with
     | None => throw (NotFoundException ("Product with ID " ++ id ++ " not found"))
     | Some product =>
         let dataToUpdate := spreadUpdate updateProductDto in
         let dataToUpdate :=
           if truthy_opt (u_name updateProductDto)
           then <["nameSearch" :=
                    VStr (toLowerCase (default "" (u_name updateProductDto)))]>
                  dataToUpdate
           else dataToUpdate in
         let* _ := updateDocument "products" id dataToUpdate in
         ret (spreadUpdate updateProductDto ∪ (product ∪ {[ "id" := VStr id ]}))
     end)
    (λ error,
       match error with
       | NotFoundException _ => throw error
       | _ => throw error
       end).

(** product.service.ts, lines 126-145. *)
Definition remove (id : string) : Async DeleteResult :=
  try_catch
    (let* product := getDocument "products" id in
     match product with
     | None => throw (NotFoundException ("Product with ID " ++ id ++ " not found"))
     | Some _ =>
         let* _ := deleteDocument "products" id in
         ret (mkDeleteResult id true)
     end)
    (λ error,
       match error with
       | NotFoundException _ => throw error
       | _ => throw error
       end).

End Catalog.

(** ** AuthService and the access guard *)

Module Auth.

Record AdminUser := mkAdminUser {
  username : string;
  password : string;
  isAdmin : bool }.

(** The payload [{ username, isAdmin }] that [login] signs. *)
Record JwtPayload := mkJwtPayload {
  jwt_username : string;
  jwt_isAdmin : bool }.

(** [JwtService] of @nestjs/jwt, with the secret and expiry it was
    registered with: [sign] issues a token for a payload, [verify] gives
    the payload of a token whose signature is valid and that has not
    expired, and nothing otherwise. *)
Class JwtService := mkJwtService {
  sign : JwtPayload → string;
  verify : string → option JwtPayload }.

(** [ConfigService]: the environment, by key. *)
Abbreviation ConfigService := (gmap string string).

(** [configService.get<string>(key) || fallback] *)
Definition get_or (configService : ConfigService) (key fallback : string) : string :=
  match configService !! key with
  | Some v => if truthy v then v else fallback
  | None => fallback
  end.

(** The [adminUsers] the constructor loads (auth.service.ts, lines 18-29). *)
Definition adminUsers (configService : ConfigService) : list AdminUser :=
  [ mkAdminUser (get_or configService "ADMIN1_USERNAME" "admin1")
                (get_or configService "ADMIN1_PASSWORD" "") true;
    mkAdminUser (get_or configService "ADMIN2_USERNAME" "admin2")
                (get_or configService "ADMIN2_PASSWORD" "") true ].

Record LoginResponse := mkLoginResponse {
  access_token : string;
  lr_username : string }.

Definition invalidCredentials : Exception :=
  UnauthorizedException "Invalid credentials".

Section AuthService.

Context `{!JwtService}.
Variable users : list AdminUser.

(** auth.service.ts, lines 40-54. *)
Definition validateUser (username' password' : string) : Result AdminUser :=
  match List.find (λ user, bool_decide (username user = username')
                           && bool_decide (password user = password')) users with
  | None => Throw invalidCredentials
  | Some user => Ok user
  end.

(** auth.service.ts, lines 59-81. *)
Definition login (username' password' : string) : Result LoginResponse :=
  match validateUser username' password' with
  | Ok user =>
      let payload := mkJwtPayload (username user) (isAdmin user) in
      let token := sign payload in
      Ok (mkLoginResponse token (username user))
  | Throw error => Throw error
  end.

(** AuthController.login (auth.controller.ts, lines 79-85): whatever
    [login] throws becomes [UnauthorizedException('Invalid credentials')]. *)
Definition AuthController_login (username' password' : string) : Result LoginResponse :=
  match login username' password' with
  | Ok r => Ok r
  | Throw _ => Throw invalidCredentials
  end.

End AuthService.

(** *** The guard *)

(** What a guard reads of the [ExecutionContext]: the [IS_PUBLIC_KEY]
    metadata of the handler and of its class, and the request's
    [Authorization] header. *)
Record ExecutionContext := mkExecutionContext {
  handlerIsPublic : option bool;
  classIsPublic : option bool;
  authorization : option string }.

(** What happens while a request is served, in order. *)
Inductive Event :=
  | VerifyToken (token : string)
  | AttachUser (user : JwtPayload)
  | RunHandler.

Definition Traced (A : Type) : Type := Result A * list Event.

(** [Reflector.getAllAndOverride]: the first target that defines the
    metadata gives the value. *)
Fixpoint getAllAndOverride (targets : list (option bool)) : option bool :=
  match targets with
  | [] => None
  | Some v :: _ => Some v
  | None :: rest => getAllAndOverride rest
  end.

(** The token of a [Bearer <token>] header. *)
Definition bearerToken (header : string) : option string :=
  if String.prefix "Bearer " header
  then Some (String.substring 7 (String.length header - 7) header)
  else None.

Section Guards.

Context `{!JwtService}.

(** Modelled from the spec: [JwtAuthGuard.canActivate]
    (src/auth/guards/jwt-auth.guard.ts is not among the sources).  The
    spec: "require a bearer token in the request's authorization
    metadata; verify it via the Token Service; on success, attach the
    decoded identity to the request context; on failure (missing,
    malformed, expired, or invalid signature), reject the request
    [...], surfacing Unauthorized". *)
Definition JwtAuthGuard_canActivate (context : ExecutionContext) : Traced bool :=
  match authorization context with
  | None => (Throw (UnauthorizedException "Unauthorized"), [])
  | Some header =>
      match bearerToken header with
      | None => (Throw (UnauthorizedException "Unauthorized"), [])
      | Some token =>
          match verify token with
          | None => (Throw (UnauthorizedException "Unauthorized"), [VerifyToken token])
          | Some user => (Ok true, [VerifyToken token; AttachUser user])
          end
      end
  end.

(** [GlobalAuthGuard.canActivate] (global-auth.guard.ts, lines 13-26), over
    the [JwtAuthGuard] it was constructed with. *)
Definition GlobalAuthGuard_canActivate
    (jwtAuthGuard : ExecutionContext → Traced bool)
    (context : ExecutionContext) : Traced bool :=
  let isPublic :=
    getAllAndOverride [handlerIsPublic context; classIsPublic context] in
  if default false isPublic then (Ok true, [])
  else jwtAuthGuard context.

Definition attachedUser (events : list Event) : option JwtPayload :=
  last (omap (λ e, match e with AttachUser u => Some u | _ => None end) events).

(** Modelled from the spec: the framework's request pipeline with the
    global guard of main.ts ("a request-level policy evaluated before
    any handler logic"): the handler runs only when the guard returned
    true; a guard that returns false is answered with Forbidden, one that
    throws with what it threw. *)
Definition handleRequest {R : Type}
    (context : ExecutionContext)
    (handler : option JwtPayload → Result R) : Traced R :=
  match GlobalAuthGuard_canActivate JwtAuthGuard_canActivate context with
  | (Ok true, events) => (handler (attachedUser events), events ++ [RunHandler])%list
  | (Ok false, events) => (Throw (ForbiddenException "Forbidden resource"), events)
  | (Throw error, events) => (Throw error, events)
  end.

End Guards.

End Auth.

(** ** FirestoreService: the whole collection *)

(** firestore.service.ts, lines 34-47. *)
Definition getCollection (collection : string) : Async (list Doc) :=
  try_catch
    (let* snapshot := Query_get (collectionQuery collection) in
     ret (withId <$> snapshot))
    (λ error, throw (InternalServerErrorException ("Database error: " ++ message error))).

(** ** LoggingService (logging.service.ts, in main.ts from line 121) *)

From stdpp Require pretty.

Module Logging.

(** [enum LogLevel]: each member is its own name. *)
Inductive LogLevel := DEBUG | INFO | WARN | ERROR.

Definition LogLevel_value (level : LogLevel) : string :=
  match level with
  | DEBUG => "DEBUG"
  | INFO => "INFO"
  | WARN => "WARN"
  | ERROR => "ERROR"
  end.

(** The methods of [console] the service prints with. *)
Inductive ConsoleMethod := ConsoleDebug | ConsoleLog | ConsoleWarn | ConsoleError.

(** What the logging code touches of its host (external system): the
    files by path, the directories, the console, and the clock.  [denied]
    gives the paths on which a write ([mkdirSync], [appendFileSync])
    throws, with the message of the error; [clock] gives the readings of
    [new Date().toISOString()] in order, [ticks] counts those taken. *)
Record Host := mkHost {
  files : gmap string string;
  dirs : gset string;
  denied : gmap string string;
  console : list (ConsoleMethod * string);
  clock : nat → string;
  ticks : nat }.

(** Synchronous code that uses the host. *)
Definition Log (A : Type) : Type := Host → A * Host.

Definition Log_ret {A} (a : A) : Log A := λ h, (a, h).
Definition Log_bind {A B} (m : Log A) (k : A → Log B) : Log B :=
  λ h, k (m h).1 (m h).2.

Notation "'let+' x ':=' m 'in' k" := (Log_bind m (λ x, k))
  (at level 10, x name, m at level 100, k at level 200).

(** [new Date().toISOString()] *)
Definition Date_toISOString : Log string :=
  λ h, (clock h (ticks h),
        mkHost (files h) (dirs h) (denied h) (console h) (clock h) (S (ticks h))).

(** [console.debug], [console.log], [console.warn], [console.error] *)
Definition console_print (method : ConsoleMethod) (line : string) : Log unit :=
  λ h, (tt, mkHost (files h) (dirs h) (denied h) (console h ++ [(method, line)])
              (clock h) (ticks h)).

(** The content of a file, empty when there is none. *)
Definition content (h : Host) (path : string) : string :=
  default "" (files h !! path).

(** [fs.appendFileSync(path, data)]: creates the file when there is none;
    the result is the message of the error it throws, if it throws. *)
Definition appendFileSync (path data : string) : Log (option string) :=
  λ h, match denied h !! path with
       | Some error => (Some error, h)
       | None =>
           (None, mkHost (<[path := content h path ++ data]> (files h)) (dirs h)
                    (denied h) (console h) (clock h) (ticks h))
       end.

(** [fs.existsSync(path)] *)
Definition existsSync (path : string) : Log bool :=
  λ h, (bool_decide (path ∈ dirs h) || is_defined (files h !! path), h).

(** [fs.mkdirSync(path)] *)
Definition mkdirSync (path : string) : Log (option string) :=
  λ h, match denied h !! path with
       | Some error => (Some error, h)
       | None =>
           (None, mkHost (files h) ({[ path ]} ∪ dirs h) (denied h) (console h)
                    (clock h) (ticks h))
       end.

(** The line feed of ['\n']. *)
Definition LF : string := String "010"%char "".

(** [s.split(sep)[0]] *)
Fixpoint before (sep : ascii) (s : string) : string :=
  match s with
  | "" => ""
  | String c rest => if Ascii.eqb c sep then "" else String c (before sep rest)
  end.

(** [path.join(dir, name)] with the POSIX separator, for a [name] without
    separators or dot segments (the names below are made of a date). *)
Definition path_join (dir name : string) : string := dir ++ "/" ++ name.

Record LoggingService := mkLoggingService {
  logFile : string;
  errorLogFile : string;
  accessLogFile : string;
  context : string }.

Definition logDir : string := "logs".

(** main.ts, lines 141-151.  An error of [mkdirSync] is not caught. *)
Definition constructor : Log (Result LoggingService) :=
  let+ present := existsSync logDir in
  let+ thrown := if present then Log_ret None else mkdirSync logDir in
  match thrown with
  | Some error => Log_ret (Throw (Error error))
  | None =>
      let+ iso := Date_toISOString in
      let date := before "T" iso in
      Log_ret (Ok (mkLoggingService
                     (path_join logDir ("app-" ++ date ++ ".log"))
                     (path_join logDir ("error-" ++ date ++ ".log"))
                     (path_join logDir ("access-" ++ date ++ ".log"))
                     "Application"))
  end.

(** main.ts, lines 156-160. *)
Definition formatLogMessage (level : LogLevel) (message : string)
    (context : option string) : Log string :=
  let+ timestamp := Date_toISOString in
  let contextStr :=
    if truthy_opt context then "[" ++ default "" context ++ "] " else "" in
  Log_ret (timestamp ++ " " ++ LogLevel_value level ++ " " ++ contextStr ++ message).

(** main.ts, lines 165-171. *)
Definition writeToFile (filePath message : string) : Log unit :=
  let+ thrown := appendFileSync filePath (message ++ LF) in
  match thrown with
  | None => Log_ret tt
  | Some error => console_print ConsoleError ("Failed to write to log file: " ++ error)
  end.

(** main.ts, lines 206-208. *)
Definition setContext (this : LoggingService) (context : string) : LoggingService :=
  mkLoggingService (logFile this) (errorLogFile this) (accessLogFile this) context.

(** main.ts, lines 213-215. *)
Definition getContext (this : LoggingService) : string := context this.

(** What the request and the response give to the logging code and to the
    exception filter.  [ip] is [undefined] when the connection is gone;
    [userAgent] is [req.get('user-agent')]. *)
Record HttpRequest := mkHttpRequest {
  method : string;
  url : string;
  originalUrl : string;
  ip : option string;
  userAgent : option string }.

(** A number in a template literal. *)
Definition number (n : Z) : string := pretty.pretty n.

(** An optional string in a template literal. *)
Definition template (s : option string) : string := default "undefined" s.

Section Service.

Variable this : LoggingService.

(** main.ts, lines 176-180. *)
Definition debug (message : string) (context : option string) : Log unit :=
  let+ formattedMessage := formatLogMessage DEBUG message context in
  let+ _ := console_print ConsoleDebug formattedMessage in
  writeToFile (logFile this) formattedMessage.

(** main.ts, lines 185-189. *)
Definition log (message : string) (context : option string) : Log unit :=
  let+ formattedMessage := formatLogMessage INFO message context in
  let+ _ := console_print ConsoleLog formattedMessage in
  writeToFile (logFile this) formattedMessage.

(** main.ts, lines 194-198. *)
Definition warn (message : string) (context : option string) : Log unit :=
  let+ formattedMessage := formatLogMessage WARN message context in
  let+ _ := console_print ConsoleWarn formattedMessage in
  writeToFile (logFile this) formattedMessage.

(** main.ts, lines 217-226. *)
Definition error (message : string) (trace context : option string) : Log unit :=
  let+ formattedMessage := formatLogMessage ERROR message context in
  let fullMessage :=
    if truthy_opt trace then formattedMessage ++ LF ++ default "" trace
    else formattedMessage in
  let+ _ := console_print ConsoleError formattedMessage in
  let+ _ := if truthy_opt trace then console_print ConsoleError (default "" trace)
            else Log_ret tt in
  let+ _ := writeToFile (logFile this) fullMessage in
  writeToFile (errorLogFile this) fullMessage.

(** main.ts, lines 231-245. *)
Definition logRequest (req : HttpRequest) (statusCode responseTime : Z) : Log unit :=
  let userAgent := if truthy_opt (userAgent req) then default "" (userAgent req) else "" in
  let message :=
    method req ++ " " ++ originalUrl req ++ " " ++ number statusCode ++ " "
    ++ number responseTime ++ "ms - " ++ template (ip req) ++ " - " ++ userAgent in
  let+ formattedMessage := formatLogMessage INFO message (Some "HTTP") in
  let+ _ := writeToFile (accessLogFile this) formattedMessage in
  if (statusCode >=? 400)%Z then writeToFile (errorLogFile this) formattedMessage
  else Log_ret tt.

End Service.

End Logging.

(** ** HttpFilterFilter (http-filter.filter.ts, in unnamed/part_002 from line 18) *)

Module HttpFilter.

Import Logging.

(** What [catch] reads of the value it is given ([exception: any]).
    [getStatus] is the result of [exception.getStatus()] when the value is
    an [HttpException], and nothing when it is not; status codes are
    integers.  [thrown_message] is [exception.message] and [thrown_stack]
    is [exception.stack], each nothing when the value has no such
    property. *)
Record Thrown := mkThrown {
  getStatus : option Z;
  thrown_message : option string;
  thrown_stack : option string }.

(** [HttpStatus.INTERNAL_SERVER_ERROR] *)
Definition INTERNAL_SERVER_ERROR : Z := 500.

Record ResponseBody := mkResponseBody {
  statusCode : Z;
  timestamp : string;
  path : string;
  body_method : string;
  body_message : string }.

(** part_002, lines 27-30: the logger the filter keeps. *)
Definition constructor (logger : LoggingService) : LoggingService :=
  setContext logger "ExceptionFilter".

(** part_002, lines 32-73.  The result is what
    [response.status(status).json(responseBody)] sends. *)
Definition catch (logger : LoggingService) (exception : Thrown) (request : HttpRequest)
  : Log (Z * ResponseBody) :=
  let status := default INTERNAL_SERVER_ERROR (getStatus exception) in
  let message :=
    if truthy_opt (thrown_message exception) then default "" (thrown_message exception)
    else "Internal server error" in
  let stack := thrown_stack exception in
  let path := url request in
  let method := method request in
  let+ _ :=
    if (status >=? 500)%Z then
      error logger
        ("[" ++ method ++ "] " ++ path ++ " - " ++ number status ++ " - " ++ message)
        stack (Some "ExceptionFilter")
    else if (status >=? 400)%Z then
      warn logger
        ("[" ++ method ++ "] " ++ path ++ " - " ++ number status ++ " - " ++ message)
        (Some "ExceptionFilter")
    else Log_ret tt in
  let+ timestamp := Date_toISOString in
  Log_ret (status, mkResponseBody status timestamp path method message).

(** *** The exceptions of this code base, as the filter reads them

    The classes are those of the framework (@nestjs/common), which is not
    part of the sources: each carries its status, a plain [Error] is no
    [HttpException], and an [HttpException] made with an empty message has
    the description of its class as message. *)

Definition statusOf (e : Exception) : option Z :=
  match e with
  | BadRequestException _ => Some 400%Z
  | UnauthorizedException _ => Some 401%Z
  | ForbiddenException _ => Some 403%Z
  | NotFoundException _ => Some 404%Z
  | InternalServerErrorException _ => Some 500%Z
  | Error _ => None
  end.

Definition descriptionOf (e : Exception) : string :=
  match e with
  | BadRequestException _ => "Bad Request"
  | UnauthorizedException _ => "Unauthorized"
  | ForbiddenException _ => "Forbidden"
  | NotFoundException _ => "Not Found"
  | InternalServerErrorException _ => "Internal Server Error"
  | Error _ => ""
  end.

Definition thrownOf (stack : Exception → option string) (e : Exception) : Thrown :=
  mkThrown (statusOf e)
    (Some (if truthy (message e) then message e else descriptionOf e))
    (stack e).

End HttpFilter.

(** ** AuthService with its log lines *)

Module AuthLogging.

Import Auth Logging.

(** auth.service.ts, lines 10-35: the logger with its context set, the
    users, and the error line when one of the two passwords is empty. *)
Definition constructor (logger : LoggingService) (configService : ConfigService)
  : Log (LoggingService * list AdminUser) :=
  let logger := setContext logger "AuthService" in
  let adminUsers := adminUsers configService in
  let+ _ :=
    if negb (truthy (get_or configService "ADMIN1_PASSWORD" ""))
       || negb (truthy (get_or configService "ADMIN2_PASSWORD" ""))
    then error logger "Admin credentials not properly configured in environment variables"
           (Some "") (Some "AuthService")
    else Log_ret tt in
  Log_ret (logger, adminUsers).

Section AuthService.

Context `{!JwtService}.
Variable logger : LoggingService.
(** [error.stack] *)
Variable stack : Exception → option string.

Variable users : list AdminUser.

(** auth.service.ts, lines 40-54, with the lines it logs. *)
Definition validateUser (username' password' : string) : Log (Result AdminUser) :=
  let+ _ := log logger ("Attempting to validate user: " ++ username')
              (Some "AuthService") in
  match List.find (λ user, bool_decide (username user = username')
                           && bool_decide (password user = password')) users with
  | None =>
      let+ _ := warn logger ("Authentication failed for user: " ++ username')
                  (Some "AuthService") in
      Log_ret (Throw invalidCredentials)
  | Some user =>
      let+ _ := log logger ("User authenticated successfully: " ++ username')
                  (Some "AuthService") in
      Log_ret (Ok user)
  end.

(** auth.service.ts, lines 59-81, with the lines it logs. *)
Definition login (username' password' : string) : Log (Result LoginResponse) :=
  let+ _ := log logger ("Login attempt for user: " ++ username') (Some "AuthService") in
  let+ validated := validateUser username' password' in
  match validated with
  | Ok user =>
      let payload := mkJwtPayload (username user) (isAdmin user) in
      let token := sign payload in
      let+ _ := log logger ("JWT token generated for user: " ++ username')
                  (Some "AuthService") in
      Log_ret (Ok (mkLoginResponse token (username user)))
  | Throw error =>
      let+ _ := Logging.error logger ("Login failed: " ++ message error) (stack error)
                  (Some "AuthService") in
      Log_ret (Throw error)
  end.

End AuthService.

End AuthLogging.

(** * Verification *)

(** ** The byte-wise order of strings and the range trick *)

Module Str.

Lemma ascii_compare_refl (c : ascii) : Ascii.compare c c = Eq.
Proof. unfold Ascii.compare. apply N.compare_refl. Qed.

Lemma ascii_compare_trans_Lt (a b c : ascii) :
  Ascii.compare a b = Lt → Ascii.compare b c = Lt → Ascii.compare a c = Lt.
Proof.
  unfold Ascii.compare. rewrite !N.compare_lt_iff. lia.
Qed.

Lemma compare_refl (s : string) : String.compare s s = Eq.
Proof.
  induction s as [|c s IH]; simpl; [reflexivity|].
  by rewrite ascii_compare_refl.
Qed.

Lemma compare_Lt_trans (a b c : string) :
  String.compare a b = Lt → String.compare b c = Lt → String.compare a c = Lt.
Proof.
  revert b c. induction a as [|x a IH]; intros [|y b] [|z c]; simpl; try done.
  destruct (Ascii.compare x y) eqn:Exy; try done.
  - apply Ascii.compare_eq_iff in Exy as ->.
    destruct (Ascii.compare y z) eqn:Eyz; try done. apply IH.
  - destruct (Ascii.compare y z) eqn:Eyz; try done.
    + apply Ascii.compare_eq_iff in Eyz as ->. by rewrite Exy.
    + by rewrite (ascii_compare_trans_Lt _ _ _ Exy Eyz).
Qed.


Lemma leb_prefix (p r : string) : String.leb p (p ++ r) = true.
Proof.
  unfold String.leb. induction p as [|c p IH]; simpl.
  - by destruct r.
  - by rewrite ascii_compare_refl.
Qed.


End Str.

(** ** The order of result sets is a total preorder *)

Section Comparison.

Context {A : Type} (cmp : A → A → comparison).
Hypothesis cmp_antisym : ∀ x y, cmp y x = CompOpp (cmp x y).
Hypothesis cmp_Lt_trans : ∀ x y z, cmp x y = Lt → cmp y z = Lt → cmp x z = Lt.
Hypothesis cmp_Eq_subst : ∀ x y z, cmp x y = Eq → cmp x z = cmp y z.

Lemma not_Gt_total x y : is_Gt (cmp x y) = false ∨ is_Gt (cmp y x) = false.
Proof. rewrite (cmp_antisym x y). destruct (cmp x y); simpl; auto. Qed.

Lemma not_Gt_trans x y z :
  is_Gt (cmp x y) = false → is_Gt (cmp y z) = false → is_Gt (cmp x z) = false.
Proof.
  destruct (cmp x y) eqn:Exy; try done; intros _.
  - by rewrite (cmp_Eq_subst x y z Exy).
  - destruct (cmp y z) eqn:Eyz; try done; intros _.
    + assert (cmp z y = Eq) as Ezy by (rewrite (cmp_antisym y z), Eyz; done).
      pose proof (cmp_Eq_subst z y x Ezy) as Hs.
      rewrite (cmp_antisym x z), (cmp_antisym x y), Exy in Hs.
      destruct (cmp x z); simpl in *; congruence.
    + by rewrite (cmp_Lt_trans x y z Exy Eyz).
Qed.

End Comparison.

Lemma Value_compare_antisym (a b : Value) :
  Value_compare b a = CompOpp (Value_compare a b).
Proof.
  destruct a, b; simpl; try done.
  - apply Z.compare_antisym.
  - apply String.compare_antisym.
Qed.

Lemma Value_compare_Eq (a b : Value) : Value_compare a b = Eq → a = b.
Proof.
  destruct a, b; simpl; try done.
  - intros ->%Z.compare_eq. done.
  - intros ->%String.compare_eq_iff. done.
Qed.

Lemma Value_compare_Lt_trans (a b c : Value) :
  Value_compare a b = Lt → Value_compare b c = Lt → Value_compare a c = Lt.
Proof.
  destruct a, b, c; simpl; try done.
  - rewrite !Z.compare_lt_iff. lia.
  - apply Str.compare_Lt_trans.
Qed.

Section KeyCompare.

Variable f : string.

(** [key_compare f] only looks at the field's value and the id. *)
Definition sort_key (x : string * Doc) : option Value * string := (x.2 !! f, x.1).

Lemma key_compare_antisym x y : key_compare f y x = CompOpp (key_compare f x y).
Proof.
  unfold key_compare. destruct (x.2 !! f) as [a|], (y.2 !! f) as [b|]; simpl; try done.
  - rewrite (Value_compare_antisym a b).
    destruct (Value_compare a b); simpl; try done. apply String.compare_antisym.
  - apply String.compare_antisym.
Qed.

Lemma key_compare_Eq x y : key_compare f x y = Eq → sort_key x = sort_key y.
Proof.
  unfold key_compare, sort_key.
  destruct (x.2 !! f) as [a|], (y.2 !! f) as [b|]; simpl; try done.
  - destruct (Value_compare a b) eqn:E; try done.
    apply Value_compare_Eq in E as ->. by intros ->%String.compare_eq_iff.
  - by intros ->%String.compare_eq_iff.
Qed.

Lemma key_compare_sort_key x x' y :
  sort_key x = sort_key x' → key_compare f x y = key_compare f x' y.
Proof. unfold sort_key, key_compare. intros [= -> ->]. done. Qed.

Lemma key_compare_Eq_subst x y z :
  key_compare f x y = Eq → key_compare f x z = key_compare f y z.
Proof. intros E. apply key_compare_sort_key, key_compare_Eq, E. Qed.

Lemma key_compare_Lt_trans x y z :
  key_compare f x y = Lt → key_compare f y z = Lt → key_compare f x z = Lt.
Proof.
  unfold key_compare.
  destruct (x.2 !! f) as [a|], (y.2 !! f) as [b|], (z.2 !! f) as [c|];
    simpl; try done.
  - destruct (Value_compare a b) eqn:Eab; try done;
      destruct (Value_compare b c) eqn:Ebc; try done.
    + apply Value_compare_Eq in Eab as ->. rewrite Ebc. apply Str.compare_Lt_trans.
    + apply Value_compare_Eq in Eab as ->. by rewrite Ebc.
    + apply Value_compare_Eq in Ebc as ->. by rewrite Eab.
    + by rewrite (Value_compare_Lt_trans _ _ _ Eab Ebc).
  - apply Str.compare_Lt_trans.
Qed.

End KeyCompare.

Lemma id_compare_Eq_subst (x y z : string * Doc) :
  String.compare x.1 y.1 = Eq → String.compare x.1 z.1 = String.compare y.1 z.1.
Proof. by intros ->%String.compare_eq_iff. Qed.

#[global] Instance order_le_total ord : Total (order_le ord).
Proof.
  intros x y. unfold order_le, order_leb.
  destruct ord as [[f []]|].
  - destruct (not_Gt_total (key_compare f) (key_compare_antisym f) x y) as [-> | ->]; auto.
  - destruct (not_Gt_total (key_compare f) (key_compare_antisym f) x y) as [-> | ->]; auto.
  - destruct (not_Gt_total (λ a b : string * Doc, String.compare a.1 b.1)
                (λ a b, String.compare_antisym b.1 a.1) x y) as [E | E];
      simpl in E; rewrite E; auto.
Qed.

#[global] Instance order_le_trans ord : Transitive (order_le ord).
Proof.
  intros x y z. unfold order_le, order_leb.
  destruct ord as [[f []]|]; rewrite !Is_true_true, !negb_true_iff.
  - apply (not_Gt_trans (key_compare f)); eauto using key_compare_antisym,
      key_compare_Lt_trans, key_compare_Eq_subst.
  - intros H1 H2. revert H2 H1.
    apply (not_Gt_trans (key_compare f)); eauto using key_compare_antisym,
      key_compare_Lt_trans, key_compare_Eq_subst.
  - apply (not_Gt_trans (λ a b : string * Doc, String.compare a.1 b.1)).
    + intros a b. apply String.compare_antisym.
    + intros a b c. apply Str.compare_Lt_trans.
    + intros a b c. apply id_compare_Eq_subst.
Qed.

(** ** Pagination guard and the not-found paths of the adapter *)

Section CatalogProofs.

Context `{!Platform}.

Implicit Types (fs : Firestore) (id : string) (d data : Doc).

(** The store after a failed or read-only operation: same documents, a
    longer log. *)
Definition logged (fs : Firestore) (calls : list StoreCall) : Firestore :=
  mkFirestore (fs_collections fs) (fs_log fs ++ calls).

Definition products (fs : Firestore) : Collection := collection_of fs "products".

Lemma logged_logged fs l1 l2 : logged (logged fs l1) l2 = logged fs (l1 ++ l2).
Proof. unfold logged. simpl. by rewrite app_assoc. Qed.

Lemma collection_of_logged fs l c : collection_of (logged fs l) c = collection_of fs c.
Proof. reflexivity. Qed.

Lemma DocumentReference_get_eq c id fs :
  DocumentReference_get c id fs = (Ok (collection_of fs c !! id), logged fs [DocGet c id]).
Proof. reflexivity. Qed.

Lemma Query_get_eq q fs :
  Query_get q fs
  = (Ok (run_query (collection_of fs (qry_collection q)) q), logged fs [QueryGet q]).
Proof. reflexivity. Qed.

Lemma getDocument_eq c id fs :
  getDocument c id fs
  = (Ok ((λ data, withId (id, data)) <$> collection_of fs c !! id), logged fs [DocGet c id]).
Proof.
  unfold getDocument, try_catch, bind. rewrite DocumentReference_get_eq.
  by destruct (collection_of fs c !! id).
Qed.

Lemma updateDocument_absent c id data fs :
  collection_of fs c !! id = None →
  updateDocument c id data fs
  = (Throw (NotFoundException
              ("Document with ID " ++ id ++ " not found in collection " ++ c)),
     logged fs [DocGet c id]).
Proof.
  intros Hid. unfold updateDocument, try_catch, bind.
  rewrite DocumentReference_get_eq, Hid. reflexivity.
Qed.

Lemma deleteDocument_absent c id fs :
  collection_of fs c !! id = None →
  deleteDocument c id fs
  = (Throw (NotFoundException
              ("Document with ID " ++ id ++ " not found in collection " ++ c)),
     logged fs [DocGet c id]).
Proof.
  intros Hid. unfold deleteDocument, try_catch, bind.
  rewrite DocumentReference_get_eq, Hid. reflexivity.
Qed.

Lemma update_absent id dto fs :
  products fs !! id = None →
  update id dto fs
  = (Throw (NotFoundException ("Product with ID " ++ id ++ " not found")),
     logged fs [DocGet "products" id]).
Proof.
  intros Hid. unfold update, try_catch, bind.
  rewrite getDocument_eq. unfold products in Hid. rewrite Hid. reflexivity.
Qed.

Lemma remove_absent id fs :
  products fs !! id = None →
  remove id fs
  = (Throw (NotFoundException ("Product with ID " ++ id ++ " not found")),
     logged fs [DocGet "products" id]).
Proof.
  intros Hid. unfold remove, try_catch, bind.
  rewrite getDocument_eq. unfold products in Hid. rewrite Hid. reflexivity.
Qed.

Lemma getCollectionWithOptions_invalid c options fs :
  (default 1 (opt_page options) < 1
   ∨ default 10 (opt_limit options) < 1
   ∨ default 10 (opt_limit options) > 100)%Z →
  getCollectionWithOptions c options fs
  = (Throw (BadRequestException invalidPagination), fs).
Proof.
  intros Hbad. unfold getCollectionWithOptions, try_catch.
  destruct ((default 1 (opt_page options) <? 1)%Z
            || (default 10 (opt_limit options) <? 1)%Z
            || (default 10 (opt_limit options) >? 100)%Z) eqn:E; [reflexivity|].
  apply orb_false_elim in E as [E E3]. apply orb_false_elim in E as [E1 E2].
  lia.
Qed.

Lemma findAll_invalid query fs :
  (default 1 (q_page query) < 1
   ∨ default 10 (q_limit query) < 1
   ∨ default 10 (q_limit query) > 100)%Z →
  findAll query fs = (Throw (BadRequestException invalidPagination), fs).
Proof.
  intros Hbad. unfold findAll, try_catch, bind.
  rewrite getCollectionWithOptions_invalid; [reflexivity|exact Hbad].
Qed.

(** ** The list operation *)

(** *** The filter predicate, in the words of the spec

    "Build a composite predicate by conjunction of whichever filters are
    present": the stored lowercase name lies between [lowercase(name)] and
    [lowercase(name) + sentinel]; the category is equal; the price is at
    least [minPrice] and at most [maxPrice].  A string filter is present
    when it was given and is not empty; a price bound is present when it
    was given. *)

Definition name_in_range (f : string) (d : Doc) : bool :=
  match d !! "nameSearch" with
  | Some (VStr s) =>
      String.leb (toLowerCase f) s && String.leb s (toLowerCase f ++ uf8ff)
  | _ => false
  end.

Definition category_is (c : string) (d : Doc) : bool :=
  bool_decide (d !! "category" = Some (VStr c)).

Definition price_at_least (m : Z) (d : Doc) : bool :=
  match d !! "price" with
  | Some (VNum p) => (m <=? p)%Z
  | _ => false
  end.

Definition price_at_most (m : Z) (d : Doc) : bool :=
  match d !! "price" with
  | Some (VNum p) => (p <=? m)%Z
  | _ => false
  end.

Definition matches_filters (query : QueryProductDto) (d : Doc) : bool :=
  match q_name query with
  | Some f => if truthy f then name_in_range f d else true
  | None => true
  end
  && match q_category query with
     | Some c => if truthy c then category_is c d else true
     | None => true
     end
  && match q_minPrice query with
     | Some m => price_at_least m d
     | None => true
     end
  && match q_maxPrice query with
     | Some m => price_at_most m d
     | None => true
     end.

(** The documents of the catalog that match, in no particular order. *)
Definition matching (query : QueryProductDto) (fs : Firestore) : list (string * Doc) :=
  List.filter (λ x, matches_filters query x.2) (map_to_list (products fs)).

Lemma is_Lt_antisym (a b : string) :
  is_Lt (String.compare a b) = is_Gt (String.compare b a).
Proof. rewrite (String.compare_antisym a b). by destruct (String.compare b a). Qed.

Lemma where_price_ge d m :
  where_holds d (mkWhere "price" OpGe (VNum m)) = price_at_least m d.
Proof.
  unfold where_holds, price_at_least. simpl.
  destruct (d !! "price") as [[p|s]|]; simpl; try done.
  rewrite Z.leb_compare, (Z.compare_antisym p m). by destruct (p ?= m)%Z.
Qed.

Lemma where_price_le d m :
  where_holds d (mkWhere "price" OpLe (VNum m)) = price_at_most m d.
Proof.
  unfold where_holds, price_at_most. simpl.
  destruct (d !! "price") as [[p|s]|]; simpl; try done.
  rewrite Z.leb_compare. by destruct (p ?= m)%Z.
Qed.

Lemma where_category d c :
  where_holds d (mkWhere "category" OpEq (VStr c)) = category_is c d.
Proof.
  unfold where_holds, category_is. simpl.
  destruct (d !! "category") as [v|]; simpl.
  - apply bool_decide_ext. split; congruence.
  - done.
Qed.

Lemma applyFilter_name q f :
  applyFilter q ("name", Some (VStr f))
  = Query_where (Query_where q "nameSearch" OpGe (VStr (toLowerCase f)))
      "nameSearch" OpLe (VStr (toLowerCase f ++ uf8ff)).
Proof. reflexivity. Qed.

Lemma applyFilter_category q c :
  applyFilter q ("category", Some (VStr c)) = Query_where q "category" OpEq (VStr c).
Proof. reflexivity. Qed.

Lemma applyFilter_minPrice q m :
  applyFilter q ("minPrice", Some (VNum m)) = Query_where q "price" OpGe (VNum m).
Proof. reflexivity. Qed.

Lemma applyFilter_maxPrice q m :
  applyFilter q ("maxPrice", Some (VNum m)) = Query_where q "price" OpLe (VNum m).
Proof. reflexivity. Qed.

Lemma applyFilter_shape q e :
  qry_collection (applyFilter q e) = qry_collection q
  ∧ qry_orderBy (applyFilter q e) = qry_orderBy q
  ∧ qry_limit (applyFilter q e) = qry_limit q
  ∧ qry_offset (applyFilter q e) = qry_offset q.
Proof.
  destruct e as [key [value|]]; simpl; [|done].
  repeat match goal with |- context [if ?b then _ else _] => destruct b end; done.
Qed.

Lemma filteredQuery_shape c filters :
  qry_collection (filteredQuery c filters) = c
  ∧ qry_orderBy (filteredQuery c filters) = None
  ∧ qry_limit (filteredQuery c filters) = None
  ∧ qry_offset (filteredQuery c filters) = None.
Proof.
  unfold filteredQuery.
  assert (∀ q, qry_collection (fold_left applyFilter filters q) = qry_collection q
               ∧ qry_orderBy (fold_left applyFilter filters q) = qry_orderBy q
               ∧ qry_limit (fold_left applyFilter filters q) = qry_limit q
               ∧ qry_offset (fold_left applyFilter filters q) = qry_offset q) as Hgen.
  { induction filters as [|e filters IH]; intros q; simpl; [done|].
    destruct (IH (applyFilter q e)) as (-> & -> & -> & ->). apply applyFilter_shape. }
  apply (Hgen (collectionQuery c)).
Qed.

Lemma where_name_ge d lo :
  where_holds d (mkWhere "nameSearch" OpGe (VStr lo))
  = match d !! "nameSearch" with Some (VStr s) => String.leb lo s | _ => false end.
Proof.
  unfold where_holds. simpl. destruct (d !! "nameSearch") as [[n|s]|]; simpl; try done.
  rewrite is_Lt_antisym. unfold String.leb. by destruct (String.compare lo s).
Qed.

Lemma where_name_le d hi :
  where_holds d (mkWhere "nameSearch" OpLe (VStr hi))
  = match d !! "nameSearch" with Some (VStr s) => String.leb s hi | _ => false end.
Proof.
  unfold where_holds. simpl. destruct (d !! "nameSearch") as [[n|s]|]; simpl; try done.
  unfold String.leb. by destruct (String.compare s hi).
Qed.

(** The [where] clauses that the adapter builds from the filters of
    [findAll] decide the predicate of the spec. *)
Lemma filteredQuery_wheres query d :
  wheres_hold (qry_where (filteredQuery "products" (findAll_filters query))) d
  = matches_filters query d.
Proof.
  destruct query as [pg lm nm ct mn mx sb so].
  unfold filteredQuery, findAll_filters, matches_filters, wheres_hold, name_in_range.
  cbn [q_name q_category q_minPrice q_maxPrice].
  destruct nm as [nm|], ct as [ct|], mn as [mn|], mx as [mx|];
    cbn [truthy_opt is_defined fmap option_fmap option_map];
    repeat match goal with
      | |- context [truthy ?x] => destruct (truthy x)
      end;
    cbn [bool_decide decide_rel app fold_left];
    rewrite ?applyFilter_name, ?applyFilter_category, ?applyFilter_minPrice,
      ?applyFilter_maxPrice;
    cbn [qry_where Query_where collectionQuery app forallb];
    rewrite ?where_name_ge, ?where_name_le, ?where_category, ?where_price_ge,
      ?where_price_le, ?andb_true_r;
    try reflexivity;
    destruct (d !! "nameSearch") as [[n|s]|]; simpl;
    rewrite ?andb_assoc; reflexivity.
Qed.

(** *** What [findAll] asks of the store *)

Definition pageOf (query : QueryProductDto) : Z := default 1%Z (q_page query).
Definition limitOf (query : QueryProductDto) : Z := default 10%Z (q_limit query).
Definition sortField (query : QueryProductDto) : string :=
  default "name" (q_sortBy query).
Definition sortDirection (query : QueryProductDto) : Direction :=
  match default ASC (q_sortOrder query) with DESC => Desc | ASC => Asc end.

Definition valid_pagination (query : QueryProductDto) : Prop :=
  (1 ≤ pageOf query ∧ 1 ≤ limitOf query ≤ 100)%Z.

(** The query whose result is counted for [total]. *)
Definition countQuery (query : QueryProductDto) : Query :=
  filteredQuery "products" (findAll_filters query).

(** The query whose result is the page. *)
Definition pageQuery (query : QueryProductDto) : Query :=
  let q := countQuery query in
  let q :=
    if truthy (sortField query)
    then Query_orderBy q (sortField query) (sortDirection query) else q in
  let offset := ((pageOf query - 1) * limitOf query)%Z in
  let q := Query_limit q (limitOf query) in
  if (offset >? 0)%Z then Query_offset q offset else q.

Lemma pageQuery_collection query : qry_collection (pageQuery query) = "products".
Proof.
  unfold pageQuery, countQuery.
  destruct (filteredQuery_shape "products" (findAll_filters query)) as (Hc & _).
  destruct (truthy (sortField query)), ((pageOf query - 1) * limitOf query >? 0)%Z;
    simpl; exact Hc.
Qed.

Lemma findAll_valid query fs :
  valid_pagination query →
  let total := Z.of_nat (length (run_query (products fs) (countQuery query))) in
  let totalPages := Math_ceil_div total (limitOf query) in
  findAll query fs
  = (Ok (mkPaginatedProductsResponseDto
           (withId <$> run_query (products fs) (pageQuery query))
           total (pageOf query) (limitOf query) totalPages
           (pageOf query <? totalPages)%Z (pageOf query >? 1)%Z),
     logged fs [QueryGet (countQuery query); QueryGet (pageQuery query)]).
Proof.
  intros (Hp & Hl1 & Hl2) total totalPages. subst total totalPages.
  unfold pageOf, limitOf in Hp, Hl1, Hl2.
  unfold findAll, getCollectionWithOptions, try_catch, bind.
  cbn [opt_page opt_limit opt_filters opt_sortBy opt_sortOrder from_option id].
  replace ((default 1 (q_page query) <? 1)%Z || (default 10 (q_limit query) <? 1)%Z
           || (default 10 (q_limit query) >? 100)%Z) with false
    by (symmetry; rewrite !orb_false_iff; lia).
  rewrite Query_get_eq.
  destruct (filteredQuery_shape "products" (findAll_filters query)) as (Hc & _).
  rewrite Hc. fold (countQuery query). fold (products fs).
  rewrite Query_get_eq, logged_logged.
  fold (sortField query) (sortDirection query) (pageOf query) (limitOf query).
  fold (pageQuery query). rewrite pageQuery_collection.
  rewrite collection_of_logged. fold (products fs).
  reflexivity.
Qed.

(** *** The result sets *)

Lemma filter_all {A} (f : A → bool) (l : list A) :
  Forall (λ x, f x = true) l → List.filter f l = l.
Proof.
  induction 1 as [|x l Hx _ IH]; simpl; [done|]. by rewrite Hx, IH.
Qed.


Lemma matching_wheres query fs :
  List.filter (λ x : string * Doc, wheres_hold (qry_where (countQuery query)) x.2)
    (map_to_list (products fs))
  = matching query fs.
Proof.
  unfold matching, countQuery. apply List.filter_ext.
  intros x. apply filteredQuery_wheres.
Qed.

Lemma run_query_count query fs :
  run_query (products fs) (countQuery query)
  = merge_sort (order_le None) (matching query fs).
Proof.
  unfold run_query. rewrite matching_wheres. unfold countQuery.
  destruct (filteredQuery_shape "products" (findAll_filters query))
    as (_ & -> & -> & ->).
  reflexivity.
Qed.

Lemma length_run_query_count query fs :
  length (run_query (products fs) (countQuery query)) = length (matching query fs).
Proof.
  rewrite run_query_count. apply Permutation_length, merge_sort_Permutation.
Qed.

(** The chosen sort field is a field name, and every stored product has
    that field. *)
Definition sortable (query : QueryProductDto) (fs : Firestore) : Prop :=
  truthy (sortField query) = true
  ∧ map_Forall (λ _ d, is_Some (d !! sortField query)) (products fs).

(** All matching documents, in the order of the page query. *)
Definition ordered (query : QueryProductDto) (fs : Firestore) : list (string * Doc) :=
  merge_sort (order_le (Some (sortField query, sortDirection query)))
    (matching query fs).

Definition offsetOf (query : QueryProductDto) : Z :=
  ((pageOf query - 1) * limitOf query)%Z.

Lemma run_query_page query fs :
  valid_pagination query →
  sortable query fs →
  run_query (products fs) (pageQuery query)
  = take (Z.to_nat (limitOf query))
      (drop (Z.to_nat (offsetOf query)) (ordered query fs)).
Proof.
  intros (Hp & Hl1 & Hl2) [Hf Hall].
  unfold run_query, pageQuery, ordered, offsetOf. rewrite Hf.
  destruct (filteredQuery_shape "products" (findAll_filters query))
    as (_ & Ho & Hl & Hoff).
  assert (List.filter (has_field (sortField query)) (matching query fs)
          = matching query fs) as Hhas.
  { apply filter_all, Forall_forall. intros [id d] Hin.
    apply bool_decide_eq_true. simpl.
    unfold matching in Hin.
    apply list_elem_of_In, List.filter_In in Hin as [Hin _].
    apply list_elem_of_In, elem_of_map_to_list in Hin.
    exact (Hall id d Hin). }
  destruct ((pageOf query - 1) * limitOf query >? 0)%Z eqn:Eoff;
    cbn [qry_where qry_orderBy qry_limit qry_offset Query_offset Query_limit
         Query_orderBy];
    fold (countQuery query); rewrite matching_wheres, Hhas.
  - reflexivity.
  - unfold countQuery. rewrite Hoff.
    replace (Z.to_nat ((pageOf query - 1) * limitOf query)) with 0%nat by lia.
    reflexivity.
Qed.




Lemma ordered_Permutation query fs : ordered query fs ≡ₚ matching query fs.
Proof. apply merge_sort_Permutation. Qed.

(** *** [Math.ceil(total / limit)] *)

Lemma Math_ceil_div_spec (a b : Z) :
  (0 < b)%Z → ((Math_ceil_div a b - 1) * b < a ≤ Math_ceil_div a b * b)%Z.
Proof.
  intros Hb. unfold Math_ceil_div.
  pose proof (Z.div_mod (- a) b ltac:(lia)) as Hdm.
  pose proof (Z.mod_pos_bound (- a) b Hb) as Hmod.
  nia.
Qed.

(** ** The by-id operations, as equations *)

(** The store after a write to the catalog: new documents, a longer log. *)
Definition written (fs : Firestore) (docs : Collection) (calls : list StoreCall)
  : Firestore :=
  mkFirestore (<["products" := docs]> (fs_collections fs)) (fs_log fs ++ calls).

Lemma products_written fs docs calls : products (written fs docs calls) = docs.
Proof.
  unfold products, collection_of, written. cbn [fs_collections].
  by rewrite lookup_insert_eq.
Qed.

Lemma products_logged fs calls : products (logged fs calls) = products fs.
Proof. reflexivity. Qed.

(** The document [create] stores. *)
Definition storedOnCreate (dto : CreateProductDto) : Doc :=
  <["nameSearch" := VStr (toLowerCase (c_name dto))]> (spreadCreate dto).

(** The [dataToUpdate] of [update]. *)
Definition dataToUpdate (dto : UpdateProductDto) : Doc :=
  if truthy_opt (u_name dto)
  then <["nameSearch" := VStr (toLowerCase (default "" (u_name dto)))]> (spreadUpdate dto)
  else spreadUpdate dto.

Lemma create_eq dto fs :
  let id := autoId (products fs) in
  create dto fs
  = (Ok (spreadCreate dto ∪ {[ "id" := VStr id ]}),
     written fs (<[id := storedOnCreate dto]> (products fs))
       [CollectionAdd "products" (storedOnCreate dto)]).
Proof. reflexivity. Qed.

Lemma findOne_eq id fs :
  findOne id fs
  = (match products fs !! id with
     | Some d => Ok (withId (id, d))
     | None => Throw (NotFoundException ("Product with ID " ++ id ++ " not found"))
     end,
     logged fs [DocGet "products" id]).
Proof.
  unfold findOne, try_catch, bind. rewrite getDocument_eq. fold (products fs).
  by destruct (products fs !! id).
Qed.

Lemma updateDocument_eq id data old fs :
  products fs !! id = Some old →
  updateDocument "products" id data fs
  = (Ok tt,
     written fs (<[id := data ∪ old]> (products fs))
       [DocGet "products" id; DocUpdate "products" id data]).
Proof.
  intros Hid. unfold updateDocument, try_catch, bind.
  rewrite DocumentReference_get_eq. fold (products fs). rewrite Hid.
  unfold DocumentReference_update, bind, store_call, read_collection.
  cbn [fs_collections fs_log logged].
  change (collection_of _ "products") with (products fs). rewrite Hid.
  unfold write_collection, written. cbn [fs_collections fs_log].
  by rewrite <- app_assoc.
Qed.

Lemma deleteDocument_eq id old fs :
  products fs !! id = Some old →
  deleteDocument "products" id fs
  = (Ok tt,
     written fs (delete id (products fs))
       [DocGet "products" id; DocDelete "products" id]).
Proof.
  intros Hid. unfold deleteDocument, try_catch, bind.
  rewrite DocumentReference_get_eq. fold (products fs). rewrite Hid.
  unfold DocumentReference_delete, bind, store_call, read_collection,
    write_collection, written.
  cbn [fs_collections fs_log logged].
  change (collection_of _ "products") with (products fs).
  by rewrite <- app_assoc.
Qed.

Lemma written_logged fs l docs calls :
  written (logged fs l) docs calls = written fs docs (l ++ calls).
Proof. unfold written, logged. cbn [fs_collections fs_log]. by rewrite app_assoc. Qed.

Lemma update_eq id dto old fs :
  products fs !! id = Some old →
  update id dto fs
  = (Ok (spreadUpdate dto ∪ (withId (id, old) ∪ {[ "id" := VStr id ]})),
     written fs (<[id := dataToUpdate dto ∪ old]> (products fs))
       [DocGet "products" id; DocGet "products" id;
        DocUpdate "products" id (dataToUpdate dto)]).
Proof.
  intros Hid. unfold update, try_catch, bind.
  rewrite getDocument_eq. fold (products fs). rewrite Hid. cbn [fmap option_fmap option_map].
  fold (dataToUpdate dto).
  rewrite (updateDocument_eq id (dataToUpdate dto) old) by (by rewrite products_logged).
  rewrite products_logged, written_logged. reflexivity.
Qed.

Lemma remove_eq id old fs :
  products fs !! id = Some old →
  remove id fs
  = (Ok (mkDeleteResult id true),
     written fs (delete id (products fs))
       [DocGet "products" id; DocGet "products" id; DocDelete "products" id]).
Proof.
  intros Hid. unfold remove, try_catch, bind.
  rewrite getDocument_eq. fold (products fs). rewrite Hid. cbn [fmap option_fmap option_map].
  rewrite (deleteDocument_eq id old) by (by rewrite products_logged).
  rewrite products_logged, written_logged. reflexivity.
Qed.

(** ** Lookups in spread objects *)

Lemma lookup_set_opt_eq k v (m : Doc) :
  set_opt k v m !! k = match v with Some x => Some x | None => m !! k end.
Proof. destruct v; simpl; [apply lookup_insert_eq | done]. Qed.

Lemma lookup_set_opt_ne k k' v (m : Doc) : k ≠ k' → set_opt k v m !! k' = m !! k'.
Proof. intros Hk. destruct v; simpl; [by apply lookup_insert_ne | done]. Qed.

Lemma spreadCreate_visible dto :
  spreadCreate dto !! "name" = Some (VStr (c_name dto))
  ∧ spreadCreate dto !! "description" = Some (VStr (c_description dto))
  ∧ spreadCreate dto !! "price" = Some (VNum (c_price dto))
  ∧ spreadCreate dto !! "stock" = Some (VNum (c_stock dto))
  ∧ spreadCreate dto !! "category" = Some (VStr (c_category dto)).
Proof.
  unfold spreadCreate.
  repeat split; rewrite lookup_set_opt_ne by done; by simplify_map_eq.
Qed.

Lemma spreadCreate_nameSearch dto :
  spreadCreate dto !! "nameSearch" = VStr <$> c_nameSearch dto.
Proof.
  unfold spreadCreate. rewrite lookup_set_opt_eq.
  destruct (c_nameSearch dto); [done|]. by simplify_map_eq.
Qed.

Lemma spreadCreate_id dto : spreadCreate dto !! "id" = None.
Proof. unfold spreadCreate. rewrite lookup_set_opt_ne by done. by simplify_map_eq. Qed.

Lemma storedOnCreate_visible dto :
  storedOnCreate dto !! "name" = Some (VStr (c_name dto))
  ∧ storedOnCreate dto !! "description" = Some (VStr (c_description dto))
  ∧ storedOnCreate dto !! "price" = Some (VNum (c_price dto))
  ∧ storedOnCreate dto !! "stock" = Some (VNum (c_stock dto))
  ∧ storedOnCreate dto !! "category" = Some (VStr (c_category dto)).
Proof.
  unfold storedOnCreate. destruct (spreadCreate_visible dto) as (?&?&?&?&?).
  repeat split; by rewrite lookup_insert_ne.
Qed.

Lemma storedOnCreate_nameSearch dto :
  storedOnCreate dto !! "nameSearch" = Some (VStr (toLowerCase (c_name dto))).
Proof. apply lookup_insert_eq. Qed.

Lemma spreadUpdate_nameSearch dto :
  spreadUpdate dto !! "nameSearch" = VStr <$> u_nameSearch dto.
Proof.
  unfold spreadUpdate. rewrite lookup_set_opt_eq.
  destruct (u_nameSearch dto); [done|].
  rewrite !lookup_set_opt_ne by done. done.
Qed.

Lemma spreadUpdate_name dto : spreadUpdate dto !! "name" = VStr <$> u_name dto.
Proof.
  unfold spreadUpdate. rewrite lookup_set_opt_ne, lookup_set_opt_eq by done.
  destruct (u_name dto); [done|].
  rewrite !lookup_set_opt_ne by done. done.
Qed.

Lemma withId_lookup id d k : k ≠ "id" → withId (id, d) !! k = d !! k.
Proof.
  intros Hk. unfold withId. cbn [fst snd].
  apply lookup_union_l. by rewrite lookup_singleton_ne.
Qed.

Lemma withId_again id d : withId (id, d) ∪ {[ "id" := VStr id ]} = withId (id, d).
Proof.
  unfold withId. cbn [fst snd]. by rewrite <- (assoc_L (∪)), (idemp_L (∪)).
Qed.

(** ** Rejections *)

(** C3: a query with page < 1, pageSize < 1 or pageSize > 100 makes the
    list operation (and the adapter's page query under it) fail with
    BadRequest, the InvalidArgument of the spec, and leaves the store as it
    was: same documents and same log, so no store call was made.  A
    pageSize of exactly 100 is accepted. *)
Theorem invalid_pagination_rejected_before_store query fs :
  ((pageOf query < 1 ∨ limitOf query < 1 ∨ limitOf query > 100)%Z →
    findAll query fs = (Throw (BadRequestException invalidPagination), fs)
    ∧ ∀ c filters sortBy sortOrder,
        getCollectionWithOptions c
          (mkQueryOptions (q_page query) (q_limit query) filters sortBy sortOrder) fs
        = (Throw (BadRequestException invalidPagination), fs))
  ∧ ((1 ≤ pageOf query)%Z → limitOf query = 100%Z →
     ∃ r fs', findAll query fs = (Ok r, fs') ∧ limit r = 100%Z).
Proof.
  split.
  - intros Hbad. split; [by apply findAll_invalid|].
    intros c filters sortBy sortOrder. by apply getCollectionWithOptions_invalid.
  - intros Hp Hl. eexists _, _. split.
    + apply findAll_valid. unfold valid_pagination. lia.
    + exact Hl.
Qed.

(** C7: for an id that is not in the store, update and delete fail with
    NotFound, at the service and at the adapter.  The store afterwards has
    the documents it had, and its log has gained the existence check (one
    read of the document) and nothing else: no write was attempted. *)
Theorem missing_id_fails_before_any_write id fs :
  products fs !! id = None →
  (∀ dto,
     update id dto fs
     = (Throw (NotFoundException ("Product with ID " ++ id ++ " not found")),
        logged fs [DocGet "products" id]))
  ∧ remove id fs
    = (Throw (NotFoundException ("Product with ID " ++ id ++ " not found")),
       logged fs [DocGet "products" id])
  ∧ (∀ data,
       updateDocument "products" id data fs
       = (Throw (NotFoundException
                   ("Document with ID " ++ id ++ " not found in collection products")),
          logged fs [DocGet "products" id]))
  ∧ deleteDocument "products" id fs
    = (Throw (NotFoundException
                ("Document with ID " ++ id ++ " not found in collection products")),
       logged fs [DocGet "products" id])
  ∧ fs_collections (logged fs [DocGet "products" id]) = fs_collections fs
  ∧ is_write (DocGet "products" id) = false.
Proof.
  intros Hid. repeat split.
  - intros dto. by apply update_absent.
  - by apply remove_absent.
  - intros data. by apply updateDocument_absent.
  - by apply deleteDocument_absent.
Qed.

(** ** Create, get, update *)

(** C4: create followed by get of the returned id.  The five visible
    fields of the product read back are those of the input, and the result
    of create carries no search field of its own making; but the product
    that get returns does carry the stored [nameSearch] field, the
    lowercase name: the search field is exposed by get. *)
Theorem create_then_findOne dto fs :
  ∃ id created fs1 found fs2,
    create dto fs = (Ok created, fs1)
    ∧ created !! "id" = Some (VStr id)
    ∧ created !! "nameSearch" = VStr <$> c_nameSearch dto
    ∧ findOne id fs1 = (Ok found, fs2)
    ∧ found !! "id" = Some (VStr id)
    ∧ found !! "name" = Some (VStr (c_name dto))
    ∧ found !! "description" = Some (VStr (c_description dto))
    ∧ found !! "price" = Some (VNum (c_price dto))
    ∧ found !! "stock" = Some (VNum (c_stock dto))
    ∧ found !! "category" = Some (VStr (c_category dto))
    ∧ found !! "nameSearch" = Some (VStr (toLowerCase (c_name dto))).
Proof.
  exists (autoId (products fs)). eexists _, _, _, _.
  split; [apply create_eq|].
  split. { rewrite lookup_union_r by apply spreadCreate_id. by simplify_map_eq. }
  split. { rewrite lookup_union_l by done. apply spreadCreate_nameSearch. }
  split. { rewrite findOne_eq, products_written, lookup_insert_eq. reflexivity. }
  destruct (storedOnCreate_visible dto) as (?&?&?&?&?).
  split.
  { unfold withId. cbn [fst snd]. rewrite lookup_union_r; [by simplify_map_eq|].
    unfold storedOnCreate. rewrite lookup_insert_ne by done. apply spreadCreate_id. }
  repeat split; rewrite withId_lookup by done; try done.
  apply storedOnCreate_nameSearch.
Qed.

(** *** The search field is kept equal to the lowercase name *)

(** The stored document has a name, and its search field is the lowercase
    of that name. *)
Definition search_field_fresh (d : Doc) : Prop :=
  ∃ n, d !! "name" = Some (VStr n)
       ∧ d !! "nameSearch" = Some (VStr (toLowerCase n)).

Definition catalog_fresh (fs : Firestore) : Prop :=
  map_Forall (λ _ d, search_field_fresh d) (products fs).

(** The operations of the catalog, as requests served one after another. *)
Inductive Request :=
  | ReqCreate (dto : CreateProductDto)
  | ReqFindAll (query : QueryProductDto)
  | ReqFindOne (id : string)
  | ReqUpdate (id : string) (dto : UpdateProductDto)
  | ReqRemove (id : string).

Definition serve (fs : Firestore) (r : Request) : Firestore :=
  match r with
  | ReqCreate dto => (create dto fs).2
  | ReqFindAll query => (findAll query fs).2
  | ReqFindOne id => (findOne id fs).2
  | ReqUpdate id dto => (update id dto fs).2
  | ReqRemove id => (remove id fs).2
  end.

Definition serve_all (reqs : list Request) (fs : Firestore) : Firestore :=
  fold_left serve reqs fs.

(** An update input is plain when it has no search field of its own and
    its name, if it has one, is not the empty string.  These are the
    inputs on which [update] keeps the search field in step; what it does
    with an empty name is [nameSearch_goes_stale]. *)
Definition plain_update (dto : UpdateProductDto) : Prop :=
  u_nameSearch dto = None ∧ u_name dto ≠ Some "".

Definition plain (r : Request) : Prop :=
  match r with
  | ReqUpdate _ dto => plain_update dto
  | _ => True
  end.

Lemma truthy_true (s : string) : s ≠ "" → truthy s = true.
Proof. intros Hs. unfold truthy. by rewrite bool_decide_eq_false_2. Qed.

Lemma dataToUpdate_named dto n :
  u_name dto = Some n → n ≠ "" →
  dataToUpdate dto !! "name" = Some (VStr n)
  ∧ dataToUpdate dto !! "nameSearch" = Some (VStr (toLowerCase n)).
Proof.
  intros Hn Hne. unfold dataToUpdate. rewrite Hn. cbn [truthy_opt from_option id].
  rewrite (truthy_true n Hne). split.
  - rewrite lookup_insert_ne by done. by rewrite spreadUpdate_name, Hn.
  - apply lookup_insert_eq.
Qed.

Lemma dataToUpdate_unnamed dto :
  truthy_opt (u_name dto) = false → dataToUpdate dto = spreadUpdate dto.
Proof. intros Hn. unfold dataToUpdate. by rewrite Hn. Qed.

Lemma findAll_products query fs : products (findAll query fs).2 = products fs.
Proof.
  destruct (decide (pageOf query < 1 ∨ limitOf query < 1 ∨ limitOf query > 100)%Z)
    as [Hbad|Hok].
  - by rewrite findAll_invalid.
  - rewrite findAll_valid; [reflexivity|]. unfold valid_pagination. lia.
Qed.

Lemma update_fresh dto (old : Doc) :
  plain_update dto → search_field_fresh old →
  search_field_fresh (dataToUpdate dto ∪ old).
Proof.
  intros [Hns Hne] (n & Hname & Hsearch).
  destruct (u_name dto) as [n'|] eqn:Hn.
  - assert (n' ≠ "") as Hn' by congruence.
    destruct (dataToUpdate_named dto n' Hn Hn') as [H1 H2].
    exists n'. split; by apply lookup_union_Some_l.
  - rewrite dataToUpdate_unnamed by (by rewrite Hn).
    exists n. split; rewrite lookup_union_r; try done.
    + by rewrite spreadUpdate_name, Hn.
    + by rewrite spreadUpdate_nameSearch, Hns.
Qed.

Lemma serve_fresh r fs : plain r → catalog_fresh fs → catalog_fresh (serve fs r).
Proof.
  intros Hv Hfs. unfold catalog_fresh in *.
  destruct r as [dto|query|id|id dto|id]; cbn [serve plain] in *.
  - rewrite create_eq. cbn [snd]. rewrite products_written.
    apply map_Forall_insert_2; [|done].
    exists (c_name dto). split;
      [apply storedOnCreate_visible | apply storedOnCreate_nameSearch].
  - by rewrite findAll_products.
  - by rewrite findOne_eq.
  - destruct (products fs !! id) as [old|] eqn:Hid.
    + rewrite (update_eq id dto old) by done. cbn [snd]. rewrite products_written.
      apply map_Forall_insert_2; [|done].
      apply update_fresh; [done|]. exact (Hfs id old Hid).
    + by rewrite update_absent.
  - destruct (products fs !! id) as [old|] eqn:Hid.
    + rewrite (remove_eq id old) by done. cbn [snd]. rewrite products_written.
      by apply map_Forall_delete.
    + by rewrite remove_absent.
Qed.

(** Where the search field is kept in step.  Over any sequence of requests
    whose updates are plain, from a store whose search fields are fresh,
    every stored product has [nameSearch = toLowerCase(name)]; a create
    stores the input's name with its lowercase; an update whose input has a
    non-empty name stores that name with its lowercase. *)
Lemma fresh_over_plain_requests reqs fs :
  Forall plain reqs → catalog_fresh fs →
  let fs' := serve_all reqs fs in
  catalog_fresh fs'
  ∧ (∀ dto, ∃ id created fs'' stored,
       create dto fs' = (Ok created, fs'')
       ∧ created !! "id" = Some (VStr id)
       ∧ products fs'' !! id = Some stored
       ∧ stored !! "name" = Some (VStr (c_name dto))
       ∧ stored !! "nameSearch" = Some (VStr (toLowerCase (c_name dto))))
  ∧ (∀ id dto n,
       is_Some (products fs' !! id) → u_name dto = Some n → n ≠ "" →
       ∃ stored,
         products (update id dto fs').2 !! id = Some stored
         ∧ stored !! "name" = Some (VStr n)
         ∧ stored !! "nameSearch" = Some (VStr (toLowerCase n))).
Proof.
  intros Hv Hfs fs'. split; [|split].
  - subst fs'. unfold serve_all. revert fs Hfs.
    induction Hv as [|r reqs Hr _ IH]; intros fs Hfs; simpl; [done|].
    apply IH. by apply serve_fresh.
  - intros dto. exists (autoId (products fs')). eexists _, _, _.
    split; [apply create_eq|].
    split. { rewrite lookup_union_r by apply spreadCreate_id. by simplify_map_eq. }
    split. { rewrite products_written. apply lookup_insert_eq. }
    split; [apply storedOnCreate_visible | apply storedOnCreate_nameSearch].
  - intros id dto n [old Hid] Hn Hne.
    rewrite (update_eq id dto old) by done. cbn [snd]. rewrite products_written.
    eexists. split; [apply lookup_insert_eq|].
    destruct (dataToUpdate_named dto n Hn Hne) as [H1 H2].
    split; by apply lookup_union_Some_l.
Qed.

(** C5: the search field does go stale.  [update] re-derives it under
    [if (updateProductDto.name)], which an empty name does not pass: for a
    stored product whose search field is fresh, an update whose name is
    the empty string stores the empty name and leaves the search field of
    the old name, so the stored product no longer has
    [nameSearch = toLowerCase(name)] and the invariant of the catalog is
    broken. *)
Theorem nameSearch_goes_stale id dto old n fs :
  products fs !! id = Some old →
  old !! "name" = Some (VStr n) →
  old !! "nameSearch" = Some (VStr (toLowerCase n)) →
  toLowerCase n ≠ toLowerCase "" →
  u_name dto = Some "" → u_nameSearch dto = None →
  ∃ view fs' stored,
    update id dto fs = (Ok view, fs')
    ∧ products fs' !! id = Some stored
    ∧ stored !! "name" = Some (VStr "")
    ∧ stored !! "nameSearch" = Some (VStr (toLowerCase n))
    ∧ ¬ search_field_fresh stored
    ∧ ¬ catalog_fresh fs'.
Proof.
  intros Hid Hname Hsearch Hlower Hn Hns.
  eexists _, _, (dataToUpdate dto ∪ old).
  split; [by apply update_eq|].
  assert (products (written fs (<[id := dataToUpdate dto ∪ old]> (products fs))
                      [DocGet "products" id; DocGet "products" id;
                       DocUpdate "products" id (dataToUpdate dto)]) !! id
          = Some (dataToUpdate dto ∪ old)) as Hstored.
  { rewrite products_written. apply lookup_insert_eq. }
  split; [exact Hstored|].
  assert ((dataToUpdate dto ∪ old) !! "name" = Some (VStr "")) as Hnew.
  { apply lookup_union_Some_l.
    rewrite dataToUpdate_unnamed by (by rewrite Hn).
    by rewrite spreadUpdate_name, Hn. }
  assert ((dataToUpdate dto ∪ old) !! "nameSearch" = Some (VStr (toLowerCase n)))
    as Hkept.
  { rewrite dataToUpdate_unnamed by (by rewrite Hn).
    rewrite lookup_union_r; [exact Hsearch|].
    by rewrite spreadUpdate_nameSearch, Hns. }
  split; [exact Hnew|]. split; [exact Hkept|].
  assert (¬ search_field_fresh (dataToUpdate dto ∪ old)) as Hstale.
  { intros (n' & Hn' & Hs'). rewrite Hnew in Hn'. rewrite Hkept in Hs'.
    injection Hn' as <-. injection Hs' as Hs'. by apply Hlower. }
  split; [exact Hstale|].
  intros Hfresh. apply Hstale. exact (Hfresh id _ Hstored).
Qed.

(** *** Update *)

Lemma dataToUpdate_lookup dto k :
  k ≠ "nameSearch" ∨ truthy_opt (u_name dto) = false →
  dataToUpdate dto !! k = spreadUpdate dto !! k.
Proof.
  unfold dataToUpdate. intros [Hk | ->]; [|done].
  destruct (truthy_opt (u_name dto)); [|done]. by rewrite lookup_insert_ne.
Qed.

(** The fields of a product (the derived search field is not one of them). *)
Definition productFields : list string :=
  ["name"; "description"; "price"; "stock"; "category"].

(** What a field holds once an input is laid over it: the input's value
    when the input has the field, what was there before when it has not. *)
Definition overlaid {A} (inj : A → Value) (given : option A) (before : option Value)
  : option Value :=
  match given with
  | Some a => Some (inj a)
  | None => before
  end.

(** [d] has the five product fields of [before] with those of the input
    [dto] laid over them. *)
Definition fields_overlaid (dto : UpdateProductDto) (before d : Doc) : Prop :=
  d !! "name" = overlaid VStr (u_name dto) (before !! "name")
  ∧ d !! "description" = overlaid VStr (u_description dto) (before !! "description")
  ∧ d !! "price" = overlaid VNum (u_price dto) (before !! "price")
  ∧ d !! "stock" = overlaid VNum (u_stock dto) (before !! "stock")
  ∧ d !! "category" = overlaid VStr (u_category dto) (before !! "category").

Lemma spreadUpdate_fields dto :
  spreadUpdate dto !! "description" = VStr <$> u_description dto
  ∧ spreadUpdate dto !! "price" = VNum <$> u_price dto
  ∧ spreadUpdate dto !! "stock" = VNum <$> u_stock dto
  ∧ spreadUpdate dto !! "category" = VStr <$> u_category dto.
Proof.
  unfold spreadUpdate. repeat split.
  - rewrite !lookup_set_opt_ne, lookup_set_opt_eq by done.
    destruct (u_description dto); [done|]. by rewrite !lookup_set_opt_ne.
  - rewrite !lookup_set_opt_ne, lookup_set_opt_eq by done.
    destruct (u_price dto); [done|]. by rewrite !lookup_set_opt_ne.
  - rewrite !lookup_set_opt_ne, lookup_set_opt_eq by done.
    destruct (u_stock dto); [done|]. by rewrite !lookup_set_opt_ne.
  - rewrite !lookup_set_opt_ne, lookup_set_opt_eq by done.
    by destruct (u_category dto).
Qed.

Lemma spreadUpdate_other dto k :
  k ∉ "nameSearch" :: productFields → spreadUpdate dto !! k = None.
Proof.
  unfold productFields. rewrite !not_elem_of_cons. intros (?&?&?&?&?&?&_).
  unfold spreadUpdate. by rewrite !lookup_set_opt_ne.
Qed.

Lemma id_not_a_field : "id" ∉ "nameSearch" :: productFields.
Proof.
  unfold productFields. rewrite !not_elem_of_cons.
  repeat split; try discriminate. apply not_elem_of_nil.
Qed.

Lemma lookup_overlaid {A} (inj : A → Value) (given : option A) (m1 m2 : Doc) k :
  m1 !! k = inj <$> given → (m1 ∪ m2) !! k = overlaid inj given (m2 !! k).
Proof.
  intros Hk. rewrite lookup_union, Hk.
  destruct given; [by destruct (m2 !! k)|]. by destruct (m2 !! k).
Qed.

(** The input laid over any document gives the five product fields as
    [fields_overlaid] says. *)
Lemma spreadUpdate_overlaid dto (m : Doc) : fields_overlaid dto m (spreadUpdate dto ∪ m).
Proof.
  destruct (spreadUpdate_fields dto) as (Hd & Hp & Hs & Hc).
  repeat split; apply lookup_overlaid; try done. apply spreadUpdate_name.
Qed.

Lemma dataToUpdate_overlaid dto (m : Doc) : fields_overlaid dto m (dataToUpdate dto ∪ m).
Proof.
  destruct (spreadUpdate_fields dto) as (Hd & Hp & Hs & Hc).
  repeat split; apply lookup_overlaid;
    rewrite dataToUpdate_lookup by (by left); try done.
  apply spreadUpdate_name.
Qed.

(** C6: update is partial.  For an existing id, each of the five product
    fields of the stored document is the input's value when the input has
    the field and the value stored before when it has not; the derived
    [nameSearch] is the lowercase of the input's name when the input has a
    non-empty name, and otherwise follows the same rule; every other
    stored field is as before; in particular [update(id, {price: X})]
    leaves name, description, stock and category as they were; other
    documents are untouched.  The value returned is the document fetched
    before the write, with its id, under the fields of the input (its
    search field is not re-derived), and the write is the last call made to
    the store: nothing is fetched after it. *)
Theorem update_is_partial id dto old fs :
  products fs !! id = Some old →
  ∃ view fs' new,
    update id dto fs = (Ok view, fs')
    ∧ products fs' !! id = Some new
    ∧ fields_overlaid dto old new
    ∧ new !! "nameSearch"
      = (if truthy_opt (u_name dto)
         then Some (VStr (toLowerCase (default "" (u_name dto))))
         else overlaid VStr (u_nameSearch dto) (old !! "nameSearch"))
    ∧ (∀ k, k ∉ "nameSearch" :: productFields → new !! k = old !! k)
    ∧ (∀ X, dto = mkUpdateProductDto None None None (Some X) None None →
            new !! "price" = Some (VNum X)
            ∧ new !! "name" = old !! "name"
            ∧ new !! "description" = old !! "description"
            ∧ new !! "stock" = old !! "stock"
            ∧ new !! "category" = old !! "category"
            ∧ new !! "nameSearch" = old !! "nameSearch")
    ∧ (∀ id', id' ≠ id → products fs' !! id' = products fs !! id')
    ∧ fields_overlaid dto old view
    ∧ view !! "nameSearch" = overlaid VStr (u_nameSearch dto) (old !! "nameSearch")
    ∧ view !! "id" = Some (default (VStr id) (old !! "id"))
    ∧ (∀ k, k ∉ "id" :: "nameSearch" :: productFields → view !! k = old !! k)
    ∧ fs_log fs'
      = (fs_log fs ++ [DocGet "products" id; DocGet "products" id;
                       DocUpdate "products" id (dataToUpdate dto)])%list.
Proof.
  intros Hid. eexists _, _, (dataToUpdate dto ∪ old).
  split; [by apply update_eq|].
  split. { rewrite products_written. apply lookup_insert_eq. }
  split; [apply dataToUpdate_overlaid|].
  split.
  { unfold dataToUpdate. destruct (truthy_opt (u_name dto)).
    - apply lookup_union_Some_l, lookup_insert_eq.
    - apply lookup_overlaid, spreadUpdate_nameSearch. }
  split.
  { intros k Hk. apply lookup_union_r.
    rewrite dataToUpdate_lookup; [by apply spreadUpdate_other|].
    left. intros ->. apply Hk. by left. }
  split.
  { intros X ->. unfold dataToUpdate, spreadUpdate.
    cbn [u_nameSearch u_name u_description u_price u_stock u_category
         truthy_opt set_opt fmap option_fmap option_map].
    split; [apply lookup_union_Some_l, lookup_insert_eq|].
    repeat split; apply lookup_union_r; by rewrite lookup_insert_ne. }
  split. { intros id' Hne. rewrite products_written. by apply lookup_insert_ne. }
  rewrite withId_again.
  assert (∀ k, k ≠ "id" → (spreadUpdate dto ∪ withId (id, old)) !! k
                         = (spreadUpdate dto ∪ old) !! k) as Hview.
  { intros k Hk. by rewrite !lookup_union, withId_lookup. }
  split.
  { destruct (spreadUpdate_overlaid dto old) as (H1 & H2 & H3 & H4 & H5).
    repeat split; rewrite Hview by done; assumption. }
  split.
  { rewrite Hview by done. apply lookup_overlaid, spreadUpdate_nameSearch. }
  split.
  { rewrite lookup_union_r by apply spreadUpdate_other, id_not_a_field.
    unfold withId. cbn [fst snd]. rewrite lookup_union, lookup_singleton_eq.
    by destruct (old !! "id"). }
  split; [|reflexivity].
  intros k Hk. apply not_elem_of_cons in Hk as [Hk1 Hk2].
  rewrite Hview by done. apply lookup_union_r. by apply spreadUpdate_other.
Qed.


(** *** The list operation *)

(** The query with another page and page size. *)
Definition paged (query : QueryProductDto) (p l : Z) : QueryProductDto :=
  mkQueryProductDto (Some p) (Some l) (q_name query) (q_category query)
    (q_minPrice query) (q_maxPrice query) (q_sortBy query) (q_sortOrder query).



(** *** When the catalog is sortable

    The stores that the service builds hold documents with the four
    fields a list can be sorted by, so every query whose [sortBy] is one of
    them (or absent: the default is the name) is sortable. *)

Definition product_shaped (d : Doc) : Prop :=
  is_Some (d !! "name") ∧ is_Some (d !! "price")
  ∧ is_Some (d !! "stock") ∧ is_Some (d !! "category").

Definition catalog_shaped (fs : Firestore) : Prop :=
  map_Forall (λ _ d, product_shaped d) (products fs).

Definition known_sort_field (query : QueryProductDto) : Prop :=
  sortField query ∈ ["name"; "price"; "stock"; "category"].

Lemma sortable_catalog query fs :
  known_sort_field query → catalog_shaped fs → sortable query fs.
Proof.
  unfold known_sort_field, sortable. intros Hf Hfs.
  rewrite !elem_of_cons, elem_of_nil in Hf.
  split.
  - destruct Hf as [-> | [-> | [-> | [-> | []]]]]; reflexivity.
  - intros id d Hd. destruct (Hfs id d Hd) as (? & ? & ? & ?).
    destruct Hf as [-> | [-> | [-> | [-> | []]]]]; done.
Qed.

Lemma is_Some_union_r (a b : Doc) k : is_Some (b !! k) → is_Some ((a ∪ b) !! k).
Proof. intros Hb. apply lookup_union_is_Some. by right. Qed.

Lemma serve_shaped r fs : catalog_shaped fs → catalog_shaped (serve fs r).
Proof.
  intros Hfs. unfold catalog_shaped in *.
  destruct r as [dto|query|id|id dto|id]; cbn [serve].
  - rewrite create_eq. cbn [snd]. rewrite products_written.
    apply map_Forall_insert_2; [|done].
    destruct (storedOnCreate_visible dto) as (Hn & _ & Hp & Hs & Hc).
    unfold product_shaped. by rewrite Hn, Hp, Hs, Hc.
  - by rewrite findAll_products.
  - by rewrite findOne_eq.
  - destruct (products fs !! id) as [old|] eqn:Hid.
    + rewrite (update_eq id dto old) by done. cbn [snd]. rewrite products_written.
      apply map_Forall_insert_2; [|done].
      destruct (Hfs id old Hid) as (? & ? & ? & ?).
      repeat split; by apply is_Some_union_r.
    + by rewrite update_absent.
  - destruct (products fs !! id) as [old|] eqn:Hid.
    + rewrite (remove_eq id old) by done. cbn [snd]. rewrite products_written.
      by apply map_Forall_delete.
    + by rewrite remove_absent.
Qed.

Lemma serve_all_shaped reqs fs : catalog_shaped fs → catalog_shaped (serve_all reqs fs).
Proof.
  unfold serve_all. revert fs.
  induction reqs as [|r reqs IH]; intros fs Hfs; simpl; [done|].
  by apply IH, serve_shaped.
Qed.

(** *** The name filter *)

(** The query of [list(name = f)]. *)
Definition byName (f : string) : QueryProductDto :=
  mkQueryProductDto None None (Some f) None None None None None.

(** The name filter of the list operation, as the adapter's [where]
    clauses evaluate it on a stored document. *)
Definition name_filter_matches (f : string) (d : Doc) : bool :=
  wheres_hold (qry_where (countQuery (byName f))) d.



Lemma prefix_app (p r : string) : String.prefix p (p ++ r) = true.
Proof.
  induction p as [|c p IH]; simpl; [by destruct r|].
  by destruct (ascii_dec c c).
Qed.


Lemma elem_of_matching query fs id d :
  (id, d) ∈ matching query fs
  ↔ products fs !! id = Some d ∧ matches_filters query d = true.
Proof.
  unfold matching. rewrite list_elem_of_In, List.filter_In, <- list_elem_of_In.
  by rewrite elem_of_map_to_list.
Qed.

Lemma name_in_range_stored f name d :
  d !! "nameSearch" = Some (VStr (toLowerCase name)) →
  name_in_range f d
  = String.leb (toLowerCase f) (toLowerCase name)
    && String.leb (toLowerCase name) (toLowerCase f ++ uf8ff).
Proof. intros Hd. unfold name_in_range. by rewrite Hd. Qed.


End CatalogProofs.

(** ** Login and the access guard *)

Module AuthProofs.

Import Auth.

Section Login.

Context `{!JwtService}.

(** The pair is one of the credentials of the list. *)
Definition credentials_match (users : list AdminUser) (u p : string) : Prop :=
  ∃ user, user ∈ users ∧ username user = u ∧ password user = p.

Lemma validateUser_Ok users u p user :
  validateUser users u p = Ok user →
  user ∈ users ∧ username user = u ∧ password user = p.
Proof.
  unfold validateUser.
  destruct (List.find _ users) as [x|] eqn:Hfind; [|done].
  intros [= ->]. apply List.find_some in Hfind as [Hin Hx].
  apply andb_true_iff in Hx as [Hu Hp].
  apply bool_decide_eq_true in Hu, Hp. by rewrite list_elem_of_In.
Qed.

Lemma validateUser_match users u p :
  credentials_match users u p → ∃ user, validateUser users u p = Ok user.
Proof.
  intros (user & Hin & Hu & Hp). unfold validateUser.
  destruct (List.find _ users) as [x|] eqn:Hfind; [by exists x|].
  apply list_elem_of_In in Hin.
  pose proof (List.find_none _ _ Hfind user Hin) as Hx. simpl in Hx.
  rewrite !bool_decide_eq_true_2 in Hx by done. done.
Qed.

Lemma validateUser_no_match users u p :
  ¬ credentials_match users u p → validateUser users u p = Throw invalidCredentials.
Proof.
  intros Hno. destruct (validateUser users u p) as [user|e] eqn:Hv.
  - destruct Hno. exists user. by apply validateUser_Ok.
  - unfold validateUser in *. by destruct (List.find _ users).
Qed.

Lemma adminUsers_isAdmin configService user :
  user ∈ adminUsers configService → isAdmin user = true.
Proof.
  unfold adminUsers. rewrite !elem_of_cons, elem_of_nil.
  intros [-> | [-> | []]]; reflexivity.
Qed.

(** C8: login succeeds iff the pair is exactly one of the configured
    admin credentials; it then returns the username with the token that
    signs the payload [{username, isAdmin: true}].  On any other pair it
    fails with Unauthorized "Invalid credentials", the same failure
    for an unknown username and for a wrong password, also through the
    controller. *)
Theorem login_iff_credentials configService u p :
  let users := adminUsers configService in
  (credentials_match users u p
   → login users u p = Ok (mkLoginResponse (sign (mkJwtPayload u true)) u))
  ∧ (¬ credentials_match users u p
     → login users u p = Throw (UnauthorizedException "Invalid credentials")
       ∧ AuthController_login users u p
         = Throw (UnauthorizedException "Invalid credentials"))
  ∧ (credentials_match users u p ↔ ∃ r, login users u p = Ok r)
  ∧ (∀ u' p', ¬ credentials_match users u p → ¬ credentials_match users u' p'
              → login users u p = login users u' p').
Proof.
  intros users.
  assert (∀ u p, credentials_match users u p
            → login users u p = Ok (mkLoginResponse (sign (mkJwtPayload u true)) u))
    as Hyes.
  { intros u0 p0 Hm. destruct (validateUser_match users u0 p0 Hm) as [user Hv].
    unfold login. rewrite Hv.
    apply validateUser_Ok in Hv as (Hin & <- & _).
    by rewrite (adminUsers_isAdmin configService user Hin). }
  assert (∀ u p, ¬ credentials_match users u p
            → login users u p = Throw invalidCredentials) as Hno.
  { intros u0 p0 Hm. unfold login. by rewrite validateUser_no_match. }
  split; [apply Hyes|]. split; [|split].
  - intros Hm. split; [by apply Hno|].
    unfold AuthController_login. by rewrite Hno.
  - split.
    + intros Hm. eexists. by apply Hyes.
    + intros [r Hr]. unfold login in Hr.
      destruct (validateUser users u p) as [user|e] eqn:Hv; [|done].
      exists user. by apply validateUser_Ok.
  - intros u' p' Hm Hm'. by rewrite !Hno.
Qed.

End Login.

Section Guard.

Context `{!JwtService}.

(** The route is tagged public. *)
Definition isPublic (context : ExecutionContext) : bool :=
  default false (getAllAndOverride [handlerIsPublic context; classIsPublic context]).

(** The bearer token of the request, if it has one. *)
Definition requestToken (context : ExecutionContext) : option string :=
  authorization context ≫= bearerToken.

(** C9: the access guard.  On a route tagged public the handler runs
    and no token is verified, whatever the request carries.  On any
    other route the handler runs only after the request's bearer token
    was verified, with the decoded identity attached; when the token is
    missing, malformed or does not verify (expired, bad signature) the
    request is answered with Unauthorized and the handler does not run.
    So a handler that ran was public or had a token that verifies.  The
    guard of the source itself, whatever JWT guard it is given: it allows a
    public route without calling that guard, and answers what that guard
    answers on any other route. *)
Theorem guard_gates_handlers {R} (context : ExecutionContext)
    (handler : option JwtPayload → Result R) :
  (∀ jwtAuthGuard,
     GlobalAuthGuard_canActivate jwtAuthGuard context
     = if isPublic context then (Ok true, []) else jwtAuthGuard context)
  ∧ (isPublic context = true
   → handleRequest context handler = (handler None, [RunHandler]))
  ∧ (isPublic context = false →
     ∀ token user,
       requestToken context = Some token → verify token = Some user →
       handleRequest context handler
       = (handler (Some user), [VerifyToken token; AttachUser user; RunHandler]))
  ∧ (isPublic context = false →
     (∀ token, requestToken context = Some token → verify token = None) →
     ∃ events,
       handleRequest context handler
       = (Throw (UnauthorizedException "Unauthorized"), events)
       ∧ RunHandler ∉ events)
  ∧ (RunHandler ∈ (handleRequest context handler).2 →
     isPublic context = true
     ∨ ∃ token user, requestToken context = Some token ∧ verify token = Some user).
Proof.
  split; [reflexivity|].
  unfold handleRequest, GlobalAuthGuard_canActivate, JwtAuthGuard_canActivate,
    requestToken.
  fold (isPublic context).
  destruct (isPublic context) eqn:Hpub.
  - repeat split; try done. by left.
  - destruct (authorization context) as [header|]; cbn [mbind option_bind].
    2:{ repeat split; try done.
        - intros _ _. eexists. split; [reflexivity|]. by apply not_elem_of_nil.
        - intros []%elem_of_nil. }
    destruct (bearerToken header) as [token|].
    2:{ repeat split; try done.
        - intros _ _. eexists. split; [reflexivity|]. by apply not_elem_of_nil.
        - intros []%elem_of_nil. }
    destruct (verify token) as [user|] eqn:Hverify.
    + repeat split; try done.
      * intros _ token' user' [= <-] Huser. rewrite Hverify in Huser.
        by injection Huser as <-.
      * intros _ Hnone. specialize (Hnone token eq_refl). congruence.
      * intros _. right. by exists token, user.
    + repeat split; try done.
      * intros _ token' user' [= <-] Huser. congruence.
      * intros _ _. eexists. split; [reflexivity|].
        rewrite elem_of_cons, elem_of_nil. by intros [? | []].
      * cbn [snd]. rewrite elem_of_cons, elem_of_nil. by intros [? | []].
Qed.

End Guard.

End AuthProofs.

(** * More of the catalog code *)

Section CatalogMore.

Context `{!Platform}.

Implicit Types (fs : Firestore) (id : string) (d data : Doc).

(** ** Reading *)

Lemma run_query_all (docs : Collection) c :
  run_query docs (collectionQuery c) = merge_sort (order_le None) (map_to_list docs).
Proof.
  unfold run_query, collectionQuery. cbn [qry_where qry_orderBy qry_offset qry_limit].
  rewrite filter_all; [reflexivity|]. by apply Forall_forall.
Qed.

(** X1: [getCollection] returns every document of the collection once, with its
    id, and only reads: the documents stay as they were and the one call to
    the store is a query. *)
Theorem getCollection_all c fs :
  ∃ docs,
    getCollection c fs = (Ok docs, logged fs [QueryGet (collectionQuery c)])
    ∧ docs ≡ₚ withId <$> map_to_list (collection_of fs c)
    ∧ length docs = size (collection_of fs c)
    ∧ (∀ id d, collection_of fs c !! id = Some d → withId (id, d) ∈ docs).
Proof.
  eexists. split.
  { unfold getCollection, try_catch, bind. rewrite Query_get_eq. reflexivity. }
  cbn [qry_collection collectionQuery]. rewrite run_query_all.
  assert (withId <$> merge_sort (order_le None) (map_to_list (collection_of fs c))
          ≡ₚ withId <$> map_to_list (collection_of fs c)) as Hperm.
  { apply fmap_Permutation, merge_sort_Permutation. }
  split; [exact Hperm|]. split.
  - rewrite length_fmap, (Permutation_length (merge_sort_Permutation _ _)).
    apply length_map_to_list.
  - intros id d Hd. rewrite Hperm. apply list_elem_of_fmap.
    exists (id, d). split; [reflexivity|]. by apply elem_of_map_to_list.
Qed.

(** X2: the operations that read ([findAll], [findOne], [getDocument],
    [getCollection]) never write, whatever they are given and whether they
    succeed or fail: the collections afterwards are the collections before,
    and every call they add to the log is a read.  [findAll] makes no call
    at all or exactly two, both of them queries. *)
Theorem reads_never_write fs :
  (∀ query, ∃ calls,
     (findAll query fs).2 = logged fs calls
     ∧ Forall (λ call, is_write call = false) calls
     ∧ (calls = [] ∨ length calls = 2)
     ∧ Forall (λ call, ∃ q, call = QueryGet q) calls)
  ∧ (∀ id, (findOne id fs).2 = logged fs [DocGet "products" id])
  ∧ (∀ c id, (getDocument c id fs).2 = logged fs [DocGet c id])
  ∧ (∀ c, (getCollection c fs).2 = logged fs [QueryGet (collectionQuery c)])
  ∧ (∀ calls, fs_collections (logged fs calls) = fs_collections fs).
Proof.
  split; [|split; [|split; [|split]]].
  - intros query.
    destruct (decide (pageOf query < 1 ∨ limitOf query < 1 ∨ limitOf query > 100)%Z)
      as [Hbad|Hok].
    + exists []. rewrite findAll_invalid by done. cbn [snd].
      split; [|by auto]. destruct fs. unfold logged. cbn. by rewrite app_nil_r.
    + eexists. rewrite findAll_valid by (unfold valid_pagination; lia).
      cbn [snd]. split; [reflexivity|]. split; [by repeat constructor|].
      split; [by right|]. repeat constructor; by eexists.
  - intros id. by rewrite findOne_eq.
  - intros c id. by rewrite getDocument_eq.
  - intros c. unfold getCollection, try_catch, bind. by rewrite Query_get_eq.
  - reflexivity.
Qed.

(** ** Creating and deleting *)

Lemma collection_of_written fs docs calls c :
  c ≠ "products" → collection_of (written fs docs calls) c = collection_of fs c.
Proof.
  intros Hc. unfold collection_of, written. cbn [fs_collections].
  by rewrite lookup_insert_ne.
Qed.

(** X3: when the id that the store assigns is not yet taken, [create] adds
    exactly one document: the new id holds the input with its search field,
    every other document and every other collection is as before, and the
    catalog has one document more. *)
Theorem create_adds_one dto fs :
  products fs !! autoId (products fs) = None →
  ∃ id created fs',
    create dto fs = (Ok created, fs')
    ∧ created !! "id" = Some (VStr id)
    ∧ products fs !! id = None
    ∧ products fs' !! id = Some (storedOnCreate dto)
    ∧ (∀ id', id' ≠ id → products fs' !! id' = products fs !! id')
    ∧ size (products fs') = S (size (products fs))
    ∧ (∀ c, c ≠ "products" → collection_of fs' c = collection_of fs c).
Proof.
  intros Hfresh. exists (autoId (products fs)). eexists _, _.
  split; [apply create_eq|].
  split. { rewrite lookup_union_r by apply spreadCreate_id. by simplify_map_eq. }
  split; [exact Hfresh|]. rewrite products_written.
  split; [apply lookup_insert_eq|].
  split. { intros id' Hne. by apply lookup_insert_ne. }
  split; [by apply map_size_insert_None|].
  intros c Hc. by apply collection_of_written.
Qed.

(** X4: deleting is final.  [remove] of an existing id answers
    [{id, deleted: true}]; afterwards the id is gone and every other
    document is as before, and a get, an update or a second delete of that
    id fails with NotFound. *)
Theorem remove_is_final id old fs :
  products fs !! id = Some old →
  ∃ fs',
    remove id fs = (Ok (mkDeleteResult id true), fs')
    ∧ products fs' !! id = None
    ∧ (∀ id', id' ≠ id → products fs' !! id' = products fs !! id')
    ∧ S (size (products fs')) = size (products fs)
    ∧ (findOne id fs').1
      = Throw (NotFoundException ("Product with ID " ++ id ++ " not found"))
    ∧ (∀ dto, (update id dto fs').1
              = Throw (NotFoundException ("Product with ID " ++ id ++ " not found")))
    ∧ (remove id fs').1
      = Throw (NotFoundException ("Product with ID " ++ id ++ " not found")).
Proof.
  intros Hid. eexists. split; [by apply (remove_eq id old)|].
  rewrite products_written.
  assert (delete id (products fs) !! id = None) as Hgone by apply lookup_delete_eq.
  split; [exact Hgone|].
  split. { intros id' Hne. by apply lookup_delete_ne. }
  split.
  { rewrite <- (insert_id (products fs) id old Hid) at 2.
    rewrite <- insert_delete_eq. symmetry. by apply map_size_insert_None. }
  split.
  { rewrite findOne_eq, products_written, Hgone. reflexivity. }
  split.
  { intros dto. rewrite update_absent; [reflexivity|].
    by rewrite products_written. }
  rewrite remove_absent; [reflexivity|]. by rewrite products_written.
Qed.

(** ** Updating *)

(** X5: what [update] answers is what a get answers right after it, field by
    field, the search field apart when the input has a name (there the
    answer of [update] is behind, C10).  In both, each of the five product
    fields is the input's value when the input has the field, and the
    value stored before the update when it has not. *)
Theorem update_view_agrees_with_get id dto old fs :
  products fs !! id = Some old →
  ∃ view fs1 found fs2,
    update id dto fs = (Ok view, fs1)
    ∧ findOne id fs1 = (Ok found, fs2)
    ∧ (∀ k, k ≠ "nameSearch" ∨ truthy_opt (u_name dto) = false →
            view !! k = found !! k)
    ∧ fields_overlaid dto old found
    ∧ fields_overlaid dto old view.
Proof.
  intros Hid. eexists _, _, _, _.
  split; [by apply update_eq|].
  split.
  { rewrite findOne_eq, products_written, lookup_insert_eq. reflexivity. }
  split; [|split].
  - intros k Hk. unfold withId. cbn [fst snd].
    rewrite !lookup_union, (dataToUpdate_lookup dto k Hk).
    by destruct (spreadUpdate dto !! k), (old !! k),
         (({[ "id" := VStr id ]} : Doc) !! k).
  - destruct (dataToUpdate_overlaid dto old) as (H1 & H2 & H3 & H4 & H5).
    repeat split; rewrite withId_lookup by done; assumption.
  - rewrite withId_again.
    destruct (spreadUpdate_overlaid dto old) as (H1 & H2 & H3 & H4 & H5).
    repeat split; rewrite lookup_union, withId_lookup, <- lookup_union by done;
      assumption.
Qed.

(** X6: updating twice with the same input stores what updating once stores. *)
Theorem update_twice id dto old fs :
  products fs !! id = Some old →
  fs_collections (update id dto (update id dto fs).2).2
  = fs_collections (update id dto fs).2.
Proof.
  intros Hid. rewrite (update_eq id dto old fs Hid). cbn [snd].
  rewrite (update_eq id dto (dataToUpdate dto ∪ old))
    by (rewrite products_written; apply lookup_insert_eq).
  cbn [snd]. rewrite products_written. unfold written. cbn [fs_collections].
  rewrite !insert_insert_eq.
  by rewrite (assoc_L (∪)), (idemp_L (∪)).
Qed.

(** ** Listing *)

(** The query without its empty string filters. *)
Definition dropEmpty (query : QueryProductDto) : QueryProductDto :=
  mkQueryProductDto (q_page query) (q_limit query)
    (if truthy_opt (q_name query) then q_name query else None)
    (if truthy_opt (q_category query) then q_category query else None)
    (q_minPrice query) (q_maxPrice query) (q_sortBy query) (q_sortOrder query).

(** X7: an empty [name] or [category] is no filter: the list operation answers
    as if it had not been given, also for the category, where an equality
    with the empty string would match nothing. *)
Theorem empty_filters_are_ignored query fs :
  findAll query fs = findAll (dropEmpty query) fs
  ∧ (q_name query = Some "" → q_category query = Some "" →
     q_minPrice query = None → q_maxPrice query = None →
     ∀ d, matches_filters query d = true).
Proof.
  split.
  - assert (findAll_filters (dropEmpty query) = findAll_filters query) as Hf.
    { unfold findAll_filters, dropEmpty.
      cbn [q_name q_category q_minPrice q_maxPrice].
      destruct (truthy_opt (q_name query)) eqn:Hn,
               (truthy_opt (q_category query)) eqn:Hc;
        rewrite ?Hn, ?Hc; reflexivity. }
    unfold findAll. rewrite Hf. reflexivity.
  - intros Hn Hc Hmin Hmax d. unfold matches_filters.
    by rewrite Hn, Hc, Hmin, Hmax.
Qed.

Lemma leb_refl (s : string) : String.leb s s = true.
Proof. unfold String.leb. by rewrite Str.compare_refl. Qed.

Lemma name_in_range_own n d :
  d !! "nameSearch" = Some (VStr (toLowerCase n)) → name_in_range n d = true.
Proof.
  intros Hd. rewrite (name_in_range_stored n n d Hd).
  by rewrite leb_refl, Str.leb_prefix.
Qed.

(** X8: a product is found by its own name, whatever characters the name has:
    after [create], and after an [update] that gives a name, the document is
    among those that the list operation with that very name as filter pages
    through. *)
Theorem found_by_own_name fs :
  (∀ dto, c_name dto ≠ "" →
     ∃ id created fs' stored,
       create dto fs = (Ok created, fs')
       ∧ created !! "id" = Some (VStr id)
       ∧ products fs' !! id = Some stored
       ∧ (id, stored) ∈ matching (byName (c_name dto)) fs')
  ∧ (∀ id dto n, is_Some (products fs !! id) → u_name dto = Some n → n ≠ "" →
       ∃ view fs' stored,
         update id dto fs = (Ok view, fs')
         ∧ products fs' !! id = Some stored
         ∧ (id, stored) ∈ matching (byName n) fs').
Proof.
  assert (∀ n d, n ≠ "" → d !! "nameSearch" = Some (VStr (toLowerCase n))
                 → matches_filters (byName n) d = true) as Hmatch.
  { intros n d Hn Hd. unfold matches_filters, byName.
    cbn [q_name q_category q_minPrice q_maxPrice].
    by rewrite (truthy_true n Hn), (name_in_range_own n d Hd). }
  split.
  - intros dto Hn. exists (autoId (products fs)). eexists _, _, (storedOnCreate dto).
    split; [apply create_eq|].
    split. { rewrite lookup_union_r by apply spreadCreate_id. by simplify_map_eq. }
    rewrite elem_of_matching, products_written, lookup_insert_eq.
    split; [reflexivity|]. split; [reflexivity|].
    apply Hmatch; [done|apply storedOnCreate_nameSearch].
  - intros id dto n [old Hid] Hname Hn.
    eexists _, _, (dataToUpdate dto ∪ old).
    split; [by apply update_eq|].
    rewrite elem_of_matching, products_written, lookup_insert_eq.
    split; [reflexivity|]. split; [reflexivity|].
    apply Hmatch; [done|].
    apply lookup_union_Some_l. by apply dataToUpdate_named.
Qed.

(** ** The adapter's page query, for any collection and options *)

Lemma filter_submseteq {A} (f : A → bool) (l : list A) : List.filter f l ⊆+ l.
Proof.
  induction l as [|x l IH]; simpl; [constructor|].
  destruct (f x); by constructor.
Qed.

(** A result set is part of the documents that satisfy the [where]
    clauses, whatever the order, offset and limit of the query. *)
Lemma run_query_submseteq (docs : Collection) q :
  run_query docs q
  ⊆+ List.filter (λ x : string * Doc, wheres_hold (qry_where q) x.2) (map_to_list docs).
Proof.
  unfold run_query.
  set (matching := List.filter _ (map_to_list docs)).
  assert (match qry_orderBy q with
          | None => merge_sort (order_le None) matching
          | Some (f, d) =>
              merge_sort (order_le (Some (f, d))) (List.filter (has_field f) matching)
          end ⊆+ matching) as Hord.
  { destruct (qry_orderBy q) as [[f d]|].
    - etransitivity; [apply Permutation_submseteq, merge_sort_Permutation|].
      apply filter_submseteq.
    - apply Permutation_submseteq, merge_sort_Permutation. }
  destruct (qry_limit q), (qry_offset q);
    repeat (etransitivity; [first [apply submseteq_take | apply submseteq_drop]|]);
    exact Hord.
Qed.

Definition optionsPage (options : QueryOptions) : Z := default 1%Z (opt_page options).
Definition optionsLimit (options : QueryOptions) : Z := default 10%Z (opt_limit options).
Definition optionsFilters (options : QueryOptions) : list (string * option Value) :=
  default [] (opt_filters options).

(** The two queries that [getCollectionWithOptions] runs. *)
Definition optionsCountQuery (c : string) (options : QueryOptions) : Query :=
  filteredQuery c (optionsFilters options).

Definition optionsPageQuery (c : string) (options : QueryOptions) : Query :=
  let q := optionsCountQuery c options in
  let sortBy := default "name" (opt_sortBy options) in
  let q :=
    if truthy sortBy
    then Query_orderBy q sortBy
           (match default ASC (opt_sortOrder options) with DESC => Desc | ASC => Asc end)
    else q in
  let offset := ((optionsPage options - 1) * optionsLimit options)%Z in
  let q := Query_limit q (optionsLimit options) in
  if (offset >? 0)%Z then Query_offset q offset else q.

Lemma optionsPageQuery_shape c options :
  qry_collection (optionsPageQuery c options) = c
  ∧ qry_where (optionsPageQuery c options) = qry_where (optionsCountQuery c options)
  ∧ qry_limit (optionsPageQuery c options) = Some (optionsLimit options).
Proof.
  unfold optionsPageQuery, optionsCountQuery.
  destruct (filteredQuery_shape c (optionsFilters options)) as (Hc & _).
  destruct (truthy (default "name" (opt_sortBy options))),
    ((optionsPage options - 1) * optionsLimit options >? 0)%Z; simpl; by rewrite Hc.
Qed.

Lemma getCollectionWithOptions_valid c options fs :
  (1 ≤ optionsPage options ∧ 1 ≤ optionsLimit options ≤ 100)%Z →
  getCollectionWithOptions c options fs
  = (Ok (mkQueryPage
           (withId <$> run_query (collection_of fs c) (optionsPageQuery c options))
           (Z.of_nat (length (run_query (collection_of fs c)
                                (optionsCountQuery c options))))),
     logged fs [QueryGet (optionsCountQuery c options);
                QueryGet (optionsPageQuery c options)]).
Proof.
  intros (Hp & Hl1 & Hl2). unfold optionsPage, optionsLimit in Hp, Hl1, Hl2.
  unfold getCollectionWithOptions, try_catch, bind.
  replace ((default 1 (opt_page options) <? 1)%Z || (default 10 (opt_limit options) <? 1)%Z
           || (default 10 (opt_limit options) >? 100)%Z) with false
    by (symmetry; rewrite !orb_false_iff; lia).
  rewrite Query_get_eq.
  destruct (filteredQuery_shape c (default [] (opt_filters options))) as (Hc & _).
  rewrite Hc. fold (optionsFilters options). fold (optionsCountQuery c options).
  rewrite Query_get_eq, logged_logged.
  fold (optionsPage options) (optionsLimit options). fold (optionsPageQuery c options).
  destruct (optionsPageQuery_shape c options) as (-> & _).
  rewrite collection_of_logged. reflexivity.
Qed.

(** X9: for every collection and every options with a valid page and limit,
    whatever the filters and the sort field: the page has at most [limit]
    items and at most [total] items, each item is a stored document (with
    its id) that satisfies the [where] clauses built from the filters, and
    the collections are left as they were. *)
Theorem page_within_total c options fs :
  (1 ≤ optionsPage options ∧ 1 ≤ optionsLimit options ≤ 100)%Z →
  ∃ r fs',
    getCollectionWithOptions c options fs = (Ok r, fs')
    ∧ fs_collections fs' = fs_collections fs
    ∧ (Z.of_nat (length (qp_items r)) ≤ optionsLimit options)%Z
    ∧ (Z.of_nat (length (qp_items r)) ≤ qp_total r)%Z
    ∧ qp_total r
      = Z.of_nat (length (List.filter
                            (λ x : string * Doc,
                               wheres_hold (qry_where (optionsCountQuery c options)) x.2)
                            (map_to_list (collection_of fs c))))
    ∧ Forall (λ item, ∃ id d,
                item = withId (id, d)
                ∧ collection_of fs c !! id = Some d
                ∧ wheres_hold (qry_where (optionsCountQuery c options)) d = true)
        (qp_items r).
Proof.
  intros Hv. eexists _, _. split; [by apply getCollectionWithOptions_valid|].
  cbn [qp_items qp_total]. split; [reflexivity|].
  destruct (optionsPageQuery_shape c options) as (_ & Hw & Hl).
  pose proof (run_query_submseteq (collection_of fs c) (optionsPageQuery c options))
    as Hpage.
  rewrite Hw in Hpage.
  assert (length (run_query (collection_of fs c) (optionsCountQuery c options))
          = length (List.filter
                      (λ x : string * Doc,
                         wheres_hold (qry_where (optionsCountQuery c options)) x.2)
                      (map_to_list (collection_of fs c)))) as Hcount.
  { unfold run_query, optionsCountQuery.
    destruct (filteredQuery_shape c (optionsFilters options)) as (_ & -> & -> & ->).
    apply Permutation_length, merge_sort_Permutation. }
  split.
  { rewrite length_fmap. unfold run_query. rewrite Hl.
    rewrite length_take, Nat2Z.inj_min. lia. }
  split.
  { rewrite length_fmap, Hcount. apply inj_le, submseteq_length, Hpage. }
  split; [by rewrite Hcount|].
  apply Forall_fmap, Forall_forall. intros [id d] Hin. cbn.
  apply (elem_of_submseteq _ _ _ Hin) in Hpage.
  apply list_elem_of_In, List.filter_In in Hpage as [Hdoc Hwhere].
  exists id, d. split; [reflexivity|]. split; [|exact Hwhere].
  by apply elem_of_map_to_list, list_elem_of_In.
Qed.

(** ** Pages of the list operation *)

(** The answer of [findAll] to a valid, sortable query, in full. *)
Lemma findAll_page query fs :
  valid_pagination query → sortable query fs →
  let n := Z.of_nat (length (ordered query fs)) in
  let pages := Math_ceil_div n (limitOf query) in
  findAll query fs
  = (Ok (mkPaginatedProductsResponseDto
           (withId <$> take (Z.to_nat (limitOf query))
                         (drop (Z.to_nat (offsetOf query)) (ordered query fs)))
           n (pageOf query) (limitOf query) pages
           (pageOf query <? pages)%Z (pageOf query >? 1)%Z),
     logged fs [QueryGet (countQuery query); QueryGet (pageQuery query)]).
Proof.
  intros Hv Hs n pages. subst n pages.
  rewrite (findAll_valid query fs Hv), (run_query_page query fs Hv Hs).
  rewrite length_run_query_count.
  by rewrite (Permutation_length (ordered_Permutation query fs)).
Qed.

(** X10: how full a page is.  For a valid, sortable query: the page has
    min(limit, total - (page-1)*limit) items (none when that is negative);
    it is not empty exactly when page <= totalPages; there is a next page
    exactly when page*limit < total, and then this page is full; and
    totalPages is 0 exactly when nothing matches. *)
Theorem page_sizes query fs :
  valid_pagination query → sortable query fs →
  ∃ r fs',
    findAll query fs = (Ok r, fs')
    ∧ Z.of_nat (length (items r))
      = Z.max 0 (Z.min (limitOf query) (total r - (pageOf query - 1) * limitOf query))
    ∧ (items r ≠ [] ↔ (pageOf query ≤ totalPages r)%Z)
    ∧ (hasNextPage r = true ↔ (pageOf query * limitOf query < total r)%Z)
    ∧ (hasNextPage r = true → Z.of_nat (length (items r)) = limitOf query)
    ∧ (totalPages r = 0%Z ↔ total r = 0%Z)
    ∧ (0 ≤ totalPages r ≤ total r)%Z.
Proof.
  intros Hv Hs. pose proof Hv as (Hp & Hl1 & Hl2).
  eexists _, _. split; [by apply findAll_page|].
  cbn [items total totalPages hasNextPage].
  set (n := length (ordered query fs)).
  pose proof (Math_ceil_div_spec (Z.of_nat n) (limitOf query) ltac:(lia)) as Hceil.
  set (pages := Math_ceil_div (Z.of_nat n) (limitOf query)) in *.
  assert (Z.of_nat (length (withId <$> take (Z.to_nat (limitOf query))
                              (drop (Z.to_nat (offsetOf query)) (ordered query fs))))
          = Z.max 0 (Z.min (limitOf query)
                       (Z.of_nat n - (pageOf query - 1) * limitOf query))) as Hlen.
  { rewrite length_fmap, length_take, length_drop. fold n. unfold offsetOf.
    assert (0 ≤ (pageOf query - 1) * limitOf query)%Z by nia. lia. }
  split; [exact Hlen|].
  split.
  { rewrite <- length_zero_iff_nil. split; intros H'; nia. }
  split. { rewrite Z.ltb_lt. split; intros H'; nia. }
  split. { rewrite Z.ltb_lt. intros H'. rewrite Hlen. nia. }
  split; [split; intros H'; nia|]. nia.
Qed.

(** The items of page [p] of a query, at the query's page size. *)
Definition page_items (query : QueryProductDto) (fs : Firestore) (p : nat) : list Doc :=
  match (findAll (paged query (Z.of_nat p) (limitOf query)) fs).1 with
  | Ok r => items r
  | Throw _ => []
  end.

(** X11: the pages tile the result.  For a valid page size and a sortable
    catalog, pages 1 to n put end to end are the first n*limit matching
    documents in sorted order, and pages 1 to totalPages are all of them:
    no document is skipped and none comes twice. *)
Theorem pages_tile_the_result query fs :
  (1 ≤ limitOf query ≤ 100)%Z → sortable query fs →
  (∀ n, concat (page_items query fs <$> seq 1 n)
        = withId <$> take (n * Z.to_nat (limitOf query)) (ordered query fs))
  ∧ concat (page_items query fs
              <$> seq 1 (Z.to_nat (Math_ceil_div
                                     (Z.of_nat (length (matching query fs)))
                                     (limitOf query))))
    = withId <$> ordered query fs.
Proof.
  intros Hl Hs.
  assert (∀ p, page_items query fs (S p)
               = withId <$> take (Z.to_nat (limitOf query))
                              (drop (p * Z.to_nat (limitOf query)) (ordered query fs)))
    as Hpage.
  { intros p. unfold page_items.
    rewrite (findAll_page (paged query (Z.of_nat (S p)) (limitOf query)) fs).
    - cbn [fst items]. unfold offsetOf, pageOf, limitOf, paged.
      cbn [q_page q_limit from_option id].
      replace (Z.to_nat ((Z.of_nat (S p) - 1) * default 10%Z (q_limit query)))
        with (p * Z.to_nat (default 10%Z (q_limit query))) by nia.
      reflexivity.
    - unfold valid_pagination, pageOf, limitOf, paged. cbn [q_page q_limit from_option id].
      unfold limitOf in Hl. lia.
    - exact Hs. }
  assert (∀ n, concat (page_items query fs <$> seq 1 n)
               = withId <$> take (n * Z.to_nat (limitOf query)) (ordered query fs))
    as Htile.
  { induction n as [|n IH]; [reflexivity|].
    rewrite seq_S, fmap_app, concat_app, IH. cbn [fmap list_fmap concat].
    rewrite app_nil_r, Hpage, <- fmap_app, take_take_drop.
    f_equal. f_equal. lia. }
  split; [exact Htile|].
  rewrite Htile, take_ge; [reflexivity|].
  rewrite (Permutation_length (ordered_Permutation query fs)).
  pose proof (Math_ceil_div_spec (Z.of_nat (length (matching query fs)))
                (limitOf query) ltac:(lia)).
  nia.
Qed.

(** ** Filters *)

Lemma filter_length_mono {A} (f g : A → bool) (l : list A) :
  (∀ x, f x = true → g x = true) →
  (length (List.filter f l) ≤ length (List.filter g l))%nat.
Proof.
  intros Hfg. induction l as [|x l IH]; simpl; [done|].
  destruct (f x) eqn:Hf.
  - rewrite (Hfg x Hf). simpl. lia.
  - destruct (g x); simpl; lia.
Qed.

Lemma filter_none {A} (f : A → bool) (l : list A) :
  (∀ x, f x = false) → List.filter f l = [].
Proof.
  intros Hf. induction l as [|x l IH]; simpl; [done|]. by rewrite Hf.
Qed.

(** The query with other price bounds. *)
Definition priced (query : QueryProductDto) (lo hi : option Z) : QueryProductDto :=
  mkQueryProductDto (q_page query) (q_limit query) (q_name query) (q_category query)
    lo hi (q_sortBy query) (q_sortOrder query).

(** The query without any filter. *)
Definition unfiltered (query : QueryProductDto) : QueryProductDto :=
  mkQueryProductDto (q_page query) (q_limit query) None None None None
    (q_sortBy query) (q_sortOrder query).

Lemma total_of query fs :
  valid_pagination query →
  (findAll query fs).1 = Ok (mkPaginatedProductsResponseDto
    (withId <$> run_query (products fs) (pageQuery query))
    (Z.of_nat (length (matching query fs))) (pageOf query) (limitOf query)
    (Math_ceil_div (Z.of_nat (length (matching query fs))) (limitOf query))
    (pageOf query <? Math_ceil_div (Z.of_nat (length (matching query fs))) (limitOf query))%Z
    (pageOf query >? 1)%Z).
Proof.
  intros Hv. rewrite (findAll_valid query fs Hv). cbn [fst].
  by rewrite length_run_query_count.
Qed.

(** The total of a query, 0 when the query is rejected. *)
Definition total_for (query : QueryProductDto) (fs : Firestore) : Z :=
  match (findAll query fs).1 with
  | Ok r => total r
  | Throw _ => 0%Z
  end.

(** X12: filters only narrow.  For a valid query the total is at most the
    number of products in the catalog, the total without filters is exactly
    that number, and widening the price range never loses a match, nor
    does dropping one of its bounds. *)
Theorem filters_only_narrow query fs :
  valid_pagination query →
  (0 ≤ total_for query fs ≤ Z.of_nat (size (products fs)))%Z
  ∧ total_for (unfiltered query) fs = Z.of_nat (size (products fs))
  ∧ (∀ lo hi lo' hi',
       q_minPrice query = Some lo → q_maxPrice query = Some hi →
       (lo' ≤ lo)%Z → (hi ≤ hi')%Z →
       (total_for query fs ≤ total_for (priced query (Some lo') (Some hi')) fs
        ≤ total_for (priced query None None) fs)%Z)
  ∧ (∀ lo hi,
       (total_for (priced query lo hi) fs ≤ total_for (priced query None hi) fs)%Z
       ∧ (total_for (priced query lo hi) fs ≤ total_for (priced query lo None) fs)%Z).
Proof.
  intros Hv.
  assert (∀ q, valid_pagination q → total_for q fs = Z.of_nat (length (matching q fs)))
    as Htotal.
  { intros q Hq. unfold total_for. by rewrite (total_of q fs Hq). }
  assert (∀ lo hi, valid_pagination (priced query lo hi)) as Hpriced by (intros; exact Hv).
  assert (valid_pagination (unfiltered query)) as Hunf by exact Hv.
  split; [|split; [|split]].
  - rewrite (Htotal query Hv). split; [lia|]. apply inj_le.
    rewrite <- length_map_to_list. unfold matching.
    apply submseteq_length, filter_submseteq.
  - rewrite (Htotal _ Hunf). f_equal. rewrite <- length_map_to_list.
    unfold matching. f_equal. apply filter_all, Forall_forall. by intros x _.
  - intros lo hi lo' hi' Hlo Hhi Hle Hge.
    rewrite (Htotal query Hv), !(Htotal _ (Hpriced _ _)).
    split; apply inj_le; unfold matching; apply filter_length_mono; intros [id d];
      unfold matches_filters, priced; cbn [q_name q_category q_minPrice q_maxPrice snd].
    + rewrite Hlo, Hhi. unfold price_at_least, price_at_most.
      destruct (match q_name query with Some f => _ | None => _ end),
        (match q_category query with Some c => _ | None => _ end),
        (d !! "price") as [[p|s]|]; cbn; try done.
      rewrite !andb_true_iff, !Z.leb_le. lia.
    + rewrite !andb_true_r. rewrite !andb_true_iff. tauto.
  - intros lo hi. rewrite !(Htotal _ (Hpriced _ _)).
    split; apply inj_le; unfold matching; apply filter_length_mono; intros [id d];
      unfold matches_filters, priced; cbn [q_name q_category q_minPrice q_maxPrice snd];
      rewrite !andb_true_iff; tauto.
Qed.

(** X13: an empty price range matches nothing: with minPrice above maxPrice a
    valid query is answered with no items, total 0, no pages and no next
    page, whatever else it asks for. *)
Theorem empty_price_range query lo hi fs :
  valid_pagination query →
  q_minPrice query = Some lo → q_maxPrice query = Some hi → (hi < lo)%Z →
  ∃ r fs',
    findAll query fs = (Ok r, fs')
    ∧ items r = [] ∧ total r = 0%Z ∧ totalPages r = 0%Z ∧ hasNextPage r = false.
Proof.
  intros Hv Hlo Hhi Hlt.
  assert (matching query fs = []) as Hnone.
  { unfold matching. apply filter_none. intros [id d].
    unfold matches_filters. rewrite Hlo, Hhi. cbn [snd].
    unfold price_at_least, price_at_most.
    destruct (d !! "price") as [[p|s]|]; rewrite ?andb_false_r; try done.
    destruct (lo <=? p)%Z eqn:E1, (p <=? hi)%Z eqn:E2;
      rewrite ?andb_false_r, ?andb_true_r; try done. lia. }
  eexists _, _. split; [by apply findAll_valid|].
  cbn [items total totalPages hasNextPage].
  rewrite length_run_query_count, Hnone. cbn [length].
  assert (run_query (products fs) (pageQuery query) = []) as ->.
  { pose proof (run_query_submseteq (products fs) (pageQuery query)) as Hsub.
    assert (qry_where (pageQuery query) = qry_where (countQuery query)) as Hw.
    { unfold pageQuery.
      destruct (truthy (sortField query)),
        ((pageOf query - 1) * limitOf query >? 0)%Z; reflexivity. }
    rewrite Hw, matching_wheres, Hnone in Hsub.
    by apply submseteq_nil_r. }
  destruct Hv as (Hp & Hl1 & Hl2).
  change (Z.of_nat 0) with 0%Z.
  assert (Math_ceil_div 0 (limitOf query) = 0%Z) as ->.
  { unfold Math_ceil_div. simpl. by rewrite Z.div_0_l by lia. }
  repeat split. apply Z.ltb_ge. lia.
Qed.

End CatalogMore.

(** * The logs *)

Module LoggingProofs.

Import Logging.

Implicit Types (this : LoggingService) (h : Host) (path : string).

Lemma append_assoc (a b c : string) : (a ++ b) ++ c = a ++ b ++ c.
Proof.
  induction a as [|x a IH]; [reflexivity|].
  change (String x ((a ++ b) ++ c) = String x (a ++ b ++ c)). by rewrite IH.
Qed.

Lemma Log_bind_eq {A B} (m : Log A) (k : A → Log B) h :
  Log_bind m k h = k (m h).1 (m h).2.
Proof. reflexivity. Qed.

(** The host after a line was appended to a file. *)
Definition appended (path line : string) h : Host :=
  mkHost (<[path := content h path ++ line ++ LF]> (files h)) (dirs h) (denied h)
    (console h) (clock h) (ticks h).

(** The host after lines were printed on the console. *)
Definition printed (lines : list (ConsoleMethod * string)) h : Host :=
  mkHost (files h) (dirs h) (denied h) (console h ++ lines)%list (clock h) (ticks h).

Definition failedToWrite (error : string) : ConsoleMethod * string :=
  (ConsoleError, "Failed to write to log file: " ++ error).

Lemma writeToFile_eq path line h :
  writeToFile path line h
  = (tt, match denied h !! path with
         | None => appended path line h
         | Some error => printed [failedToWrite error] h
         end).
Proof.
  unfold writeToFile, Log_bind, appendFileSync.
  destruct (denied h !! path); reflexivity.
Qed.

(** The host after the clock was read once. *)
Definition ticked h : Host :=
  mkHost (files h) (dirs h) (denied h) (console h) (clock h) (S (ticks h)).

(** What [writeToFile] leaves. *)
Definition written_line (path line : string) h : Host :=
  match denied h !! path with
  | None => appended path line h
  | Some error => printed [failedToWrite error] h
  end.

Lemma writeToFile_written path line h :
  writeToFile path line h = (tt, written_line path line h).
Proof. apply writeToFile_eq. Qed.

(** The line [formatLogMessage] makes at [h]. *)
Definition formatted h (level : LogLevel) (message : string) (context : option string)
  : string :=
  (formatLogMessage level message context h).1.

Lemma formatLogMessage_eq level message context h :
  formatLogMessage level message context h
  = (formatted h level message context, ticked h).
Proof. reflexivity. Qed.

Lemma warn_eq this message context h :
  warn this message context h
  = (tt, written_line (logFile this) (formatted h WARN message context)
           (printed [(ConsoleWarn, formatted h WARN message context)] (ticked h))).
Proof.
  unfold warn. rewrite !Log_bind_eq, formatLogMessage_eq. cbn [fst snd].
  apply writeToFile_written.
Qed.

Lemma log_eq this message context h :
  log this message context h
  = (tt, written_line (logFile this) (formatted h INFO message context)
           (printed [(ConsoleLog, formatted h INFO message context)] (ticked h))).
Proof.
  unfold log. rewrite !Log_bind_eq, formatLogMessage_eq. cbn [fst snd].
  apply writeToFile_written.
Qed.

(** The entry [error] writes: the line, and the trace below it if there
    is one. *)
Definition fullMessage (line : string) (trace : option string) : string :=
  if truthy_opt trace then line ++ LF ++ default "" trace else line.

Lemma error_eq this message trace context h :
  error this message trace context h
  = (tt, let line := formatted h ERROR message context in
         written_line (errorLogFile this) (fullMessage line trace)
           (written_line (logFile this) (fullMessage line trace)
              (printed (if truthy_opt trace then [(ConsoleError, default "" trace)] else [])
                 (printed [(ConsoleError, line)] (ticked h))))).
Proof.
  unfold error. rewrite !Log_bind_eq, formatLogMessage_eq. cbn [fst snd].
  rewrite !writeToFile_written. cbn [fst snd]. unfold fullMessage.
  destruct (truthy_opt trace); cbn [fst snd console_print Log_ret]; [reflexivity|].
  unfold printed, ticked. cbn [files dirs denied console clock ticks].
  by rewrite app_nil_r.
Qed.

Lemma files_written_line path line h path' :
  files (written_line path line h) !! path'
  = match denied h !! path with
    | None => if decide (path = path') then Some (content h path ++ line ++ LF)
              else files h !! path'
    | Some _ => files h !! path'
    end.
Proof.
  unfold written_line. destruct (denied h !! path); [reflexivity|].
  cbn [appended files]. apply lookup_insert.
Qed.

Lemma content_written_line path line h path' :
  content (written_line path line h) path'
  = match denied h !! path with
    | None => if decide (path = path') then content h path ++ line ++ LF
              else content h path'
    | Some _ => content h path'
    end.
Proof.
  unfold content at 1. rewrite files_written_line.
  destruct (denied h !! path); [reflexivity|]. by destruct (decide (path = path')).
Qed.

Lemma denied_written_line path line h :
  denied (written_line path line h) = denied h.
Proof. unfold written_line. by destruct (denied h !! path). Qed.

Lemma console_written_line path line h :
  console (written_line path line h)
  = match denied h !! path with
    | None => console h
    | Some error => (console h ++ [failedToWrite error])%list
    end.
Proof. unfold written_line. by destruct (denied h !! path). Qed.

Lemma clock_written_line path line h : clock (written_line path line h) = clock h.
Proof. unfold written_line. by destruct (denied h !! path). Qed.

Lemma ticks_written_line path line h : ticks (written_line path line h) = ticks h.
Proof. unfold written_line. by destruct (denied h !! path). Qed.

Lemma content_printed lines h path : content (printed lines h) path = content h path.
Proof. reflexivity. Qed.

Lemma content_ticked h path : content (ticked h) path = content h path.
Proof. reflexivity. Qed.

Ltac host_simpl :=
  repeat (rewrite ?content_written_line, ?files_written_line, ?denied_written_line,
            ?console_written_line, ?clock_written_line, ?ticks_written_line,
            ?content_printed, ?content_ticked;
          cbn [denied files console clock ticks printed ticked]).

(** ** Which files a call writes *)

(** The call prints [line] with [shown] and appends it to [file], and to
    no other file; when the append fails, no file changes and the failure
    is printed. *)
Definition logs_line (run : Log unit) (shown : ConsoleMethod) (line file : string) h
  : Prop :=
  let h' := (run h).2 in
  (∀ path, path ≠ file → files h' !! path = files h !! path)
  ∧ match denied h !! file with
    | None =>
        content h' file = content h file ++ line ++ LF
        ∧ console h' = (console h ++ [(shown, line)])%list
    | Some error =>
        files h' = files h
        ∧ console h' = (console h ++ [(shown, line); failedToWrite error])%list
    end.

(** X14: [debug], [log] and [warn] print the formatted line and append it to
    the application log only: the error log and the access log are never
    touched by them.  A failed append changes no file and is reported on
    the console. *)
Theorem plain_levels_write_the_app_log_only this message context h :
  let formatted level := (formatLogMessage level message context h).1 in
  logs_line (debug this message context) ConsoleDebug (formatted DEBUG) (logFile this) h
  ∧ logs_line (log this message context) ConsoleLog (formatted INFO) (logFile this) h
  ∧ logs_line (warn this message context) ConsoleWarn (formatted WARN) (logFile this) h.
Proof.
  intros formatted. subst formatted.
  repeat split;
    unfold debug, log, warn, formatLogMessage, Date_toISOString, console_print;
    rewrite ?Log_bind_eq; cbn [fst snd Log_ret];
    rewrite ?writeToFile_eq; cbn [fst snd denied];
    destruct (denied h !! logFile this) as [e|] eqn:Hd;
    unfold appended, printed, content;
    cbn [files dirs denied console clock ticks];
    rewrite ?lookup_insert_eq, <- ?List.app_assoc; try done;
    intros; rewrite ?lookup_insert_ne by done; done.
Qed.


(** X15: [error] appends the same entry, the line with the trace below it if
    there is one, to the application log and to the error log, and to no
    other file; it prints the line and the trace. *)
Theorem error_goes_to_both_logs this message trace context h :
  logFile this ≠ errorLogFile this →
  denied h !! logFile this = None → denied h !! errorLogFile this = None →
  let h' := (error this message trace context h).2 in
  let line := (formatLogMessage ERROR message context h).1 in
  let entry := if truthy_opt trace then line ++ LF ++ default "" trace else line in
  content h' (logFile this) = content h (logFile this) ++ entry ++ LF
  ∧ content h' (errorLogFile this) = content h (errorLogFile this) ++ entry ++ LF
  ∧ (∀ path, path ≠ logFile this → path ≠ errorLogFile this
             → files h' !! path = files h !! path)
  ∧ console h'
    = (console h ++ (ConsoleError, line)
         :: if truthy_opt trace then [(ConsoleError, default "" trace)] else [])%list.
Proof.
  intros Hne Hlog Herr h' line entry. subst h' line entry.
  rewrite error_eq. cbn [snd]. fold (formatted h ERROR message context).
  fold (fullMessage (formatted h ERROR message context) trace).
  set (full := fullMessage _ _).
  repeat split; [| |intros path H1 H2|]; host_simpl; rewrite ?Hlog, ?Herr; host_simpl.
  - repeat case_decide; congruence.
  - repeat case_decide; congruence.
  - repeat case_decide; congruence.
  - by rewrite <- List.app_assoc.
Qed.

(** X16: [logRequest] appends its line to the access log always, and to the
    error log as well exactly when the status code is 400 or more; it
    touches no other file, the application log included, and prints
    nothing. *)
Theorem logRequest_routes_by_status this req statusCode responseTime h :
  accessLogFile this ≠ errorLogFile this →
  denied h !! accessLogFile this = None → denied h !! errorLogFile this = None →
  let h' := (logRequest this req statusCode responseTime h).2 in
  ∃ line,
    content h' (accessLogFile this) = content h (accessLogFile this) ++ line ++ LF
    ∧ ((400 ≤ statusCode)%Z
       → content h' (errorLogFile this) = content h (errorLogFile this) ++ line ++ LF)
    ∧ ((statusCode < 400)%Z
       → files h' !! errorLogFile this = files h !! errorLogFile this)
    ∧ (∀ path, path ≠ accessLogFile this → path ≠ errorLogFile this
               → files h' !! path = files h !! path)
    ∧ console h' = console h.
Proof.
  intros Hne Hacc Herr h'. subst h'.
  unfold logRequest. rewrite !Log_bind_eq, formatLogMessage_eq. cbn [fst snd].
  set (line := formatted h INFO _ _). exists line.
  rewrite writeToFile_written. cbn [fst snd].
  destruct (statusCode >=? 400)%Z eqn:Hstatus.
  - rewrite writeToFile_written. cbn [snd].
    repeat split; [|intros _|intros Hlt|intros path H1 H2|];
      host_simpl; rewrite ?Hacc, ?Herr; host_simpl;
      try (repeat case_decide; congruence).
    lia.
  - cbn [Log_ret snd].
    repeat split; [|intros Hge|intros _|intros path H1 H2|];
      host_simpl; rewrite ?Hacc, ?Herr; host_simpl;
      try (repeat case_decide; congruence).
    lia.
Qed.

(** ** The logs only grow *)

(** [h'] is [h] after more logging: every file has its old content
    followed by more, no file is gone, the console has its old lines
    followed by more, and the clock was read some more times. *)
Definition extends h h' : Prop :=
  (∀ path, ∃ more, content h' path = content h path ++ more)
  ∧ (∀ path, is_Some (files h !! path) → is_Some (files h' !! path))
  ∧ (∃ more, console h' = (console h ++ more)%list)
  ∧ denied h' = denied h ∧ dirs h' = dirs h ∧ clock h' = clock h
  ∧ (ticks h ≤ ticks h')%nat.

Lemma append_nil_r (a : string) : a ++ "" = a.
Proof.
  induction a as [|x a IH]; [reflexivity|].
  change (String x (a ++ "") = String x a). by rewrite IH.
Qed.

Lemma extends_refl h : extends h h.
Proof.
  repeat split; try done.
  - intros path. exists "". by rewrite append_nil_r.
  - exists []. by rewrite app_nil_r.
Qed.

Lemma extends_trans h1 h2 h3 : extends h1 h2 → extends h2 h3 → extends h1 h3.
Proof.
  intros (Hc & Hf & [l Hl] & Hd & Hdir & Hclock & Ht)
         (Hc' & Hf' & [l' Hl'] & Hd' & Hdir' & Hclock' & Ht').
  repeat split; try congruence; try lia.
  - intros path. destruct (Hc path) as [m Hm], (Hc' path) as [m' Hm'].
    exists (m ++ m'). by rewrite Hm', Hm, append_assoc.
  - intros path Hp. by apply Hf', Hf.
  - exists (l ++ l')%list. by rewrite Hl', Hl, <- List.app_assoc.
Qed.

Definition grows {A} (m : Log A) : Prop := ∀ h, extends h (m h).2.

Lemma grows_ret {A} (a : A) : grows (Log_ret a).
Proof. intros h. apply extends_refl. Qed.

Lemma grows_bind {A B} (m : Log A) (k : A → Log B) :
  grows m → (∀ a, grows (k a)) → grows (Log_bind m k).
Proof.
  intros Hm Hk h. rewrite Log_bind_eq.
  eapply extends_trans; [apply Hm|apply Hk].
Qed.

Lemma extends_ticked h : extends h (ticked h).
Proof.
  repeat split; try done; cbn [ticked ticks]; try lia.
  - intros path. exists "". by rewrite content_ticked, append_nil_r.
  - exists []. by rewrite app_nil_r.
Qed.

Lemma extends_printed lines h : extends h (printed lines h).
Proof.
  repeat split; try done.
  - intros path. exists "". by rewrite content_printed, append_nil_r.
  - by exists lines.
Qed.

Lemma extends_written_line path line h : extends h (written_line path line h).
Proof.
  unfold written_line. destruct (denied h !! path) as [e|] eqn:Hd;
    [apply extends_printed|].
  repeat split; try done.
  - intros path'. unfold content, appended. cbn [files].
    destruct (decide (path = path')) as [<-|Hne].
    + rewrite lookup_insert_eq. by eexists.
    + rewrite lookup_insert_ne by done. exists "". by rewrite append_nil_r.
  - intros path' Hp. cbn [appended files].
    destruct (decide (path = path')) as [<-|Hne].
    + by rewrite lookup_insert_eq.
    + by rewrite lookup_insert_ne.
  - exists []. cbn [appended console]. by rewrite app_nil_r.
Qed.

Lemma grows_formatLogMessage level message context :
  grows (formatLogMessage level message context).
Proof. intros h. rewrite formatLogMessage_eq. apply extends_ticked. Qed.

Lemma grows_console_print shown line : grows (console_print shown line).
Proof. intros h. apply (extends_printed [(shown, line)]). Qed.

Lemma grows_writeToFile path line : grows (writeToFile path line).
Proof. intros h. rewrite writeToFile_written. apply extends_written_line. Qed.

Create HintDb grows.

#[local] Hint Resolve grows_ret grows_formatLogMessage grows_console_print
  grows_writeToFile : grows.

Ltac grows_step :=
  repeat (first [progress cbv zeta | solve [eauto with grows]
                | apply grows_bind; [|intros ?]
                | match goal with |- grows (if ?b then _ else _) => destruct b end ]).

(** The calls of the logging service. *)
Inductive LogCall :=
  | CallDebug (message : string) (context : option string)
  | CallLog (message : string) (context : option string)
  | CallWarn (message : string) (context : option string)
  | CallError (message : string) (trace context : option string)
  | CallLogRequest (req : HttpRequest) (statusCode responseTime : Z).

Definition perform this (call : LogCall) : Log unit :=
  match call with
  | CallDebug message context => debug this message context
  | CallLog message context => log this message context
  | CallWarn message context => warn this message context
  | CallError message trace context => error this message trace context
  | CallLogRequest req statusCode responseTime =>
      logRequest this req statusCode responseTime
  end.

Definition perform_all this (calls : list LogCall) h : Host :=
  fold_left (λ h call, (perform this call h).2) calls h.

Lemma grows_perform this call : grows (perform this call).
Proof.
  destruct call; unfold perform, debug, log, warn, error, logRequest; grows_step.
Qed.

(** X17: the logs are append-only.  Whatever is logged, in whatever order and
    whether or not the appends succeed, every log file keeps its old
    content as a prefix of the new, no file disappears, and the console
    keeps its lines. *)
Theorem logs_only_grow this calls h : extends h (perform_all this calls h).
Proof.
  revert h. induction calls as [|call calls IH]; intros h; [apply extends_refl|].
  eapply extends_trans; [apply (grows_perform this call)|apply IH].
Qed.

(** X18: the context set with [setContext] is stored and given back by
    [getContext], and nothing else reads it: the lines logged afterwards
    are the same as without it. *)
Theorem setContext_is_never_read this context call h :
  perform (setContext this context) call h = perform this call h
  ∧ getContext (setContext this context) = context.
Proof. split; [by destruct call|reflexivity]. Qed.

(** ** The files of a service *)

(** X19: the constructor names three different files in [logs], whatever the
    clock says; it creates the directory when nothing is there by that
    name and leaves the directories as they are when a directory or a file
    of that name exists; it writes no file and prints nothing; it fails
    only when the directory is missing and cannot be made. *)
Theorem constructor_names_three_files h :
  match constructor h with
  | (Ok this, h') =>
      (let date := before "T" (clock h (ticks h)) in
       logFile this = "logs/app-" ++ date ++ ".log"
       ∧ errorLogFile this = "logs/error-" ++ date ++ ".log"
       ∧ accessLogFile this = "logs/access-" ++ date ++ ".log")
      ∧ logFile this ≠ errorLogFile this
      ∧ logFile this ≠ accessLogFile this
      ∧ errorLogFile this ≠ accessLogFile this
      ∧ files h' = files h ∧ console h' = console h
      ∧ ("logs" ∈ dirs h' ∨ is_Some (files h !! "logs"))
      ∧ dirs h ⊆ dirs h'
      ∧ ("logs" ∈ dirs h ∨ is_Some (files h !! "logs") → dirs h' = dirs h)
      ∧ ("logs" ∉ dirs h → files h !! "logs" = None
         → dirs h' = {[ "logs" ]} ∪ dirs h)
  | (Throw e, h') =>
      h' = h ∧ ("logs" ∉ dirs h) ∧ files h !! "logs" = None
      ∧ denied h !! "logs" = Some (message e)
  end.
Proof.
  unfold constructor, existsSync, mkdirSync, Date_toISOString, logDir, path_join.
  rewrite !Log_bind_eq. cbn [fst snd].
  destruct (bool_decide ("logs" ∈ dirs h)) eqn:Hdir.
  - apply bool_decide_eq_true in Hdir. cbn [orb Log_ret fst snd].
    rewrite !Log_bind_eq. cbn [fst snd files dirs console clock ticks Log_ret].
    repeat split; try done; try (by left).
  - apply bool_decide_eq_false in Hdir. cbn [orb].
    destruct (files h !! "logs") as [f|] eqn:Hfile; cbn [is_defined Log_ret fst snd].
    + rewrite !Log_bind_eq. cbn [fst snd files dirs console clock ticks Log_ret].
      repeat split; try done. by right.
    + destruct (denied h !! "logs") as [e|] eqn:Hdenied; cbn [fst snd].
      * done.
      * rewrite !Log_bind_eq. cbn [fst snd files dirs console clock ticks Log_ret].
        repeat split; try done; [left; set_solver|set_solver|].
        intros [Hin | [f Hf]]; [done|discriminate].
Qed.

End LoggingProofs.

(** * The exception filter *)

Module HttpFilterProofs.

Import Logging HttpFilter LoggingProofs.

Implicit Types (logger : LoggingService) (h : Host) (exception : Thrown).

(** The message the filter answers with. *)
Definition shownMessage exception : string :=
  if truthy_opt (thrown_message exception) then default "" (thrown_message exception)
  else "Internal server error".

(** The message the filter logs. *)
Definition loggedMessage exception (request : HttpRequest) : string :=
  "[" ++ method request ++ "] " ++ url request ++ " - "
  ++ number (default 500%Z (getStatus exception)) ++ " - " ++ shownMessage exception.

Lemma catch_eq logger exception request h :
  catch logger exception request h
  = let status := default 500%Z (getStatus exception) in
    let h1 :=
      if (status >=? 500)%Z then
        (error logger (loggedMessage exception request) (thrown_stack exception)
           (Some "ExceptionFilter") h).2
      else if (status >=? 400)%Z then
        (warn logger (loggedMessage exception request) (Some "ExceptionFilter") h).2
      else h in
    ((status,
      mkResponseBody status (clock h1 (ticks h1)) (url request) (method request)
        (shownMessage exception)),
     ticked h1).
Proof.
  unfold catch, INTERNAL_SERVER_ERROR. rewrite !Log_bind_eq.
  fold (shownMessage exception). fold (loggedMessage exception request).
  cbv zeta.
  destruct (default 500 (getStatus exception) >=? 500)%Z; [reflexivity|].
  destruct (default 500 (getStatus exception) >=? 400)%Z; reflexivity.
Qed.

Lemma shownMessage_not_empty exception : shownMessage exception ≠ "".
Proof.
  unfold shownMessage.
  destruct (thrown_message exception) as [m|]; cbn [truthy_opt from_option id]; [|done].
  unfold truthy. destruct (bool_decide (m = "")) eqn:E; cbn [negb]; [done|].
  by apply bool_decide_eq_false in E.
Qed.

Lemma prefix_app_more (p l r : string) :
  String.prefix p l = true → String.prefix p (l ++ r) = true.
Proof.
  revert l. induction p as [|c p IH]; intros l Hp; [by destruct l, r|].
  destruct l as [|c' l]; [discriminate|].
  change (String c' l ++ r) with (String c' (l ++ r)).
  simpl in *. destruct (ascii_dec c c'); [by apply IH|discriminate].
Qed.

Lemma formatted_prefix h level (context message : string) :
  context ≠ "" →
  String.prefix (clock h (ticks h) ++ " " ++ LogLevel_value level ++ " ["
                 ++ context ++ "] ")
    (formatted h level message (Some context)) = true.
Proof.
  intros Hc. unfold formatted, formatLogMessage. rewrite Log_bind_eq.
  cbn [fst snd Date_toISOString Log_ret truthy_opt from_option id].
  rewrite (truthy_true context Hc).
  replace (clock h (ticks h) ++ " " ++ LogLevel_value level ++ " "
           ++ ("[" ++ context ++ "] ") ++ message)
    with ((clock h (ticks h) ++ " " ++ LogLevel_value level ++ " ["
           ++ context ++ "] ") ++ message).
  - apply prefix_app.
  - rewrite !append_assoc. reflexivity.
Qed.

(** X20: the filter answers any thrown value with its status when it is an
    HTTP exception and with 500 when it is not, with the request's url and
    method, and with a message that is never empty: the value's own
    message, or "Internal server error" when it has none or an empty one.
    What it logs goes by the status: for 500 and above an ERROR entry in
    the application log and in the error log; from 400 to 499 a WARN entry
    in the application log only; below 400 nothing at all.  The time stamp
    of the answer is read after the one of the entry. *)
Theorem filter_answers_and_logs logger exception request h :
  logFile logger ≠ errorLogFile logger →
  denied h !! logFile logger = None → denied h !! errorLogFile logger = None →
  ∃ body h',
    let status := default 500%Z (getStatus exception) in
    let stamp := clock h (ticks h) in
    catch logger exception request h = ((status, body), h')
    ∧ statusCode body = status
    ∧ path body = url request
    ∧ body_method body = method request
    ∧ body_message body ≠ ""
    ∧ (∀ m, thrown_message exception = Some m → m ≠ "" → body_message body = m)
    ∧ (thrown_message exception = None ∨ thrown_message exception = Some ""
       → body_message body = "Internal server error")
    ∧ ((500 ≤ status)%Z →
       ∃ entry,
         String.prefix (stamp ++ " ERROR [ExceptionFilter] ") entry = true
         ∧ content h' (logFile logger) = content h (logFile logger) ++ entry ++ LF
         ∧ content h' (errorLogFile logger)
           = content h (errorLogFile logger) ++ entry ++ LF
         ∧ timestamp body = clock h (S (ticks h)))
    ∧ ((400 ≤ status < 500)%Z →
       ∃ entry,
         String.prefix (stamp ++ " WARN [ExceptionFilter] ") entry = true
         ∧ content h' (logFile logger) = content h (logFile logger) ++ entry ++ LF
         ∧ files h' !! errorLogFile logger = files h !! errorLogFile logger
         ∧ timestamp body = clock h (S (ticks h)))
    ∧ ((status < 400)%Z →
       files h' = files h ∧ console h' = console h
       ∧ timestamp body = clock h (ticks h))
    ∧ (∀ path, path ≠ logFile logger → path ≠ errorLogFile logger
               → files h' !! path = files h !! path).
Proof.
  intros Hne Hlog Herr. eexists _, _. cbv zeta.
  split; [apply catch_eq|]. cbv zeta.
  cbn [statusCode path body_method body_message timestamp].
  split; [reflexivity|]. split; [reflexivity|]. split; [reflexivity|].
  split; [apply shownMessage_not_empty|].
  split.
  { intros m Hm Hne'. unfold shownMessage. rewrite Hm.
    cbn [truthy_opt from_option id]. by rewrite truthy_true. }
  split.
  { unfold shownMessage. by intros [-> | ->]. }
  set (status := default 500%Z (getStatus exception)).
  destruct (status >=? 500)%Z eqn:H500.
  - rewrite error_eq. cbn [snd].
    set (line := formatted h ERROR _ _). set (full := fullMessage _ _).
    split.
    { intros _. exists full. split; [|split; [|split]].
      - pose proof (formatted_prefix h ERROR "ExceptionFilter"
                      (loggedMessage exception request) ltac:(discriminate)) as Hp.
        unfold full, fullMessage. fold line in Hp.
        destruct (truthy_opt (thrown_stack exception)); [|exact Hp].
        by apply prefix_app_more.
      - host_simpl. rewrite ?Hlog, ?Herr. host_simpl. repeat case_decide; congruence.
      - host_simpl. rewrite ?Hlog, ?Herr. host_simpl. repeat case_decide; congruence.
      - host_simpl. reflexivity. }
    split; [intros ?; lia|]. split; [intros ?; lia|].
    intros path' H1 H2. host_simpl. rewrite ?Hlog, ?Herr. host_simpl.
    repeat case_decide; congruence.
  - destruct (status >=? 400)%Z eqn:H400.
    + rewrite warn_eq. cbn [snd].
      set (line := formatted h WARN _ _).
      split; [intros ?; lia|].
      split.
      { intros _. exists line. split; [|split; [|split]].
        - exact (formatted_prefix h WARN "ExceptionFilter"
                   (loggedMessage exception request) ltac:(discriminate)).
        - host_simpl. rewrite ?Hlog. host_simpl. repeat case_decide; congruence.
        - host_simpl. rewrite ?Hlog. host_simpl. repeat case_decide; congruence.
        - host_simpl. reflexivity. }
      split; [intros ?; lia|].
      intros path' H1 H2. host_simpl. rewrite ?Hlog. host_simpl.
      repeat case_decide; congruence.
    + split; [intros ?; lia|]. split; [intros ?; lia|].
      split; [intros _; by cbn [ticked files console]|].
      intros path' _ _. reflexivity.
Qed.

(** ** The failures of the catalog, as answered *)

Definition thrown {A} (x : Result A) : option Exception :=
  match x with
  | Throw e => Some e
  | Ok _ => None
  end.

Section CatalogFailures.

Context `{!Platform}.


Definition productNotFound (id : string) : Exception :=
  NotFoundException ("Product with ID " ++ id ++ " not found").



End CatalogFailures.

End HttpFilterProofs.

(** * The log of the login *)

Module AuthLoggingProofs.

Import Auth Logging LoggingProofs.

Section Login.

Context `{!JwtService}.

Implicit Types (logger : LoggingService) (h : Host) (users : list AdminUser).

Lemma find_credentials users u p :
  match List.find (λ user, bool_decide (username user = u)
                           && bool_decide (password user = p)) users with
  | Some user => AuthProofs.credentials_match users u p ∧ username user = u
  | None => ¬ AuthProofs.credentials_match users u p
  end.
Proof.
  destruct (List.find _ users) as [user|] eqn:Hfind.
  - assert (validateUser users u p = Ok user) as Hv
      by (unfold validateUser; by rewrite Hfind).
    apply AuthProofs.validateUser_Ok in Hv as (Hin & Hu & Hp).
    split; [by exists user|done].
  - intros Hm. apply AuthProofs.validateUser_match in Hm as [user Hv].
    unfold validateUser in Hv. by rewrite Hfind in Hv.
Qed.

(** What [login] logs for a username, when the credentials matched and
    when they did not. *)
Definition login_calls (stack : Exception → option string) (u : string) (matched : bool)
  : list LogCall :=
  CallLog ("Login attempt for user: " ++ u) (Some "AuthService")
  :: CallLog ("Attempting to validate user: " ++ u) (Some "AuthService")
  :: if matched then
       [ CallLog ("User authenticated successfully: " ++ u) (Some "AuthService");
         CallLog ("JWT token generated for user: " ++ u) (Some "AuthService") ]
     else
       [ CallWarn ("Authentication failed for user: " ++ u) (Some "AuthService");
         CallError ("Login failed: " ++ message invalidCredentials)
           (stack invalidCredentials) (Some "AuthService") ].

Lemma login_eq logger stack users u p h :
  AuthLogging.login logger stack users u p h
  = (Auth.login users u p,
     perform_all logger
       (login_calls stack u
          (is_defined (List.find (λ user, bool_decide (username user = u)
                                          && bool_decide (password user = p)) users)))
       h).
Proof.
  unfold AuthLogging.login, AuthLogging.validateUser, Auth.login, validateUser.
  destruct (List.find _ users) as [user|];
    cbv beta iota delta [Log_bind Log_ret fst snd login_calls is_defined perform_all
                         fold_left perform];
    reflexivity.
Qed.

(** X22: the log lines of [login] change nothing of its outcome, and they
    show of the password only whether it was right: the calls to the
    logger are made of the username and of that one bit, so two attempts
    for the same username that both succeed, or both fail, leave the same
    files and the same console. *)
Theorem login_logs_hide_the_password logger stack users u p h :
  (AuthLogging.login logger stack users u p h).1 = Auth.login users u p
  ∧ (∃ matched : bool,
       (matched = true ↔ AuthProofs.credentials_match users u p)
       ∧ (AuthLogging.login logger stack users u p h).2
         = perform_all logger (login_calls stack u matched) h)
  ∧ ∀ p', (AuthProofs.credentials_match users u p
           ↔ AuthProofs.credentials_match users u p')
          → (AuthLogging.login logger stack users u p' h).2
            = (AuthLogging.login logger stack users u p h).2.
Proof.
  rewrite login_eq. cbn [fst snd].
  pose proof (find_credentials users u p) as Hp.
  split; [reflexivity|split].
  - eexists. split; [|reflexivity].
    destruct (List.find _ users); cbn [is_defined]; [tauto|].
    split; [discriminate|tauto].
  - intros p' Hiff. rewrite login_eq. cbn [snd].
    pose proof (find_credentials users u p') as Hp'.
    destruct (List.find _ users), (List.find _ users); cbn [is_defined];
      try reflexivity; tauto.
Qed.

(** X23: a password that is not configured is the empty password.  When
    [ADMIN1_PASSWORD] is unset or empty the constructor logs an ERROR
    entry and goes on, and [login] then accepts the first admin's username
    with the empty password. *)
Theorem unset_password_admits_empty logger configService h :
  configService !! "ADMIN1_PASSWORD" = None
  ∨ configService !! "ADMIN1_PASSWORD" = Some "" →
  let name := get_or configService "ADMIN1_USERNAME" "admin1" in
  ∃ h',
    AuthLogging.constructor logger configService h
    = ((setContext logger "AuthService", adminUsers configService), h')
    ∧ h' = (error (setContext logger "AuthService")
              "Admin credentials not properly configured in environment variables"
              (Some "") (Some "AuthService") h).2
    ∧ Auth.login (adminUsers configService) name ""
      = Ok (mkLoginResponse (sign (mkJwtPayload name true)) name)
    ∧ AuthController_login (adminUsers configService) name ""
      = Ok (mkLoginResponse (sign (mkJwtPayload name true)) name).
Proof.
  intros Hunset name.
  assert (get_or configService "ADMIN1_PASSWORD" "" = "") as Hpw.
  { unfold get_or. destruct Hunset as [-> | ->]; reflexivity. }
  eexists. split; [|split].
  - unfold AuthLogging.constructor. rewrite Log_bind_eq, Hpw. reflexivity.
  - reflexivity.
  - assert (Auth.login (adminUsers configService) name ""
            = Ok (mkLoginResponse (sign (mkJwtPayload name true)) name)) as Hlogin.
    { subst name. unfold Auth.login, validateUser, adminUsers.
      cbn [List.find username password]. rewrite Hpw.
      rewrite !bool_decide_eq_true_2 by done. reflexivity. }
    split; [exact Hlogin|]. unfold AuthController_login. by rewrite Hlogin.
Qed.

End Login.

End AuthLoggingProofs.

(** * Concrete instances

    A platform and a token service to run the code on: [toLowerCase] on the
    ASCII letters (the other bytes are kept, which is what the language does
    on the strings used below), ids chosen fresh for the collection, and
    tokens that spell out their payload. *)

Definition ascii_toLowerCase (c : ascii) : ascii :=
  if Ascii.leb "A" c && Ascii.leb c "Z"
  then ascii_of_nat (nat_of_ascii c + 32)
  else c.

Fixpoint string_toLowerCase (s : string) : string :=
  match s with
  | EmptyString => EmptyString
  | String c s => String (ascii_toLowerCase c) (string_toLowerCase s)
  end.

#[local] Instance examplePlatform : Platform :=
  mkPlatform string_toLowerCase (λ docs, fresh (dom docs)).

#[local] Instance exampleJwt : Auth.JwtService :=
  Auth.mkJwtService
    (λ payload,
       (if Auth.jwt_isAdmin payload then "admin:" else "user:")
       ++ Auth.jwt_username payload)
    (λ token,
       if String.prefix "admin:" token
       then Some (Auth.mkJwtPayload (String.substring 6 (String.length token - 6) token) true)
       else if String.prefix "user:" token
       then Some (Auth.mkJwtPayload (String.substring 5 (String.length token - 5) token) false)
       else None).

Definition emptyStore : Firestore := mkFirestore ∅ [].

Definition wirelessMouse : CreateProductDto :=
  mkCreateProductDto None "Wireless Mouse" "A mouse without a wire" 1999 5 "Electronics".

Definition keyboard : CreateProductDto :=
  mkCreateProductDto None "Keyboard" "A keyboard with many keys" 4999 7 "Electronics".

(** The store after the two products were created: their ids are "0" and "1". *)
Definition twoProducts : Firestore :=
  serve_all [ReqCreate wirelessMouse; ReqCreate keyboard] emptyStore.

Definition names (docs : list Doc) : list (option Value) :=
  (λ d : Doc, d !! "name") <$> docs.

Definition listed (r : Result PaginatedProductsResponseDto * Firestore)
  : option (list (option Value) * Z * Z * bool * bool) :=
  match r.1 with
  | Ok r => Some (names (items r), total r, totalPages r, hasNextPage r, hasPreviousPage r)
  | Throw _ => None
  end.

Example list_by_price_desc :
  listed (findAll (mkQueryProductDto None None None None None None
                     (Some "price") (Some DESC)) twoProducts)
  = Some ([Some (VStr "Keyboard"); Some (VStr "Wireless Mouse")], 2%Z, 1%Z, false, false).
Proof. vm_compute. reflexivity. Qed.

Example list_second_page_of_one :
  listed (findAll (mkQueryProductDto (Some 2%Z) (Some 1%Z) None None None None
                     None None) twoProducts)
  = Some ([Some (VStr "Wireless Mouse")], 2%Z, 2%Z, false, true).
Proof. vm_compute. reflexivity. Qed.

Example list_page_beyond_data :
  listed (findAll (mkQueryProductDto (Some 7%Z) (Some 10%Z) None None
                     (Some 1000%Z) None None None) twoProducts)
  = Some ([], 2%Z, 1%Z, false, true).
Proof. vm_compute. reflexivity. Qed.

Example list_price_range :
  listed (findAll (mkQueryProductDto None None None (Some "Electronics")
                     (Some 2000%Z) (Some 4999%Z) None None) twoProducts)
  = Some ([Some (VStr "Keyboard")], 1%Z, 1%Z, false, false).
Proof. vm_compute. reflexivity. Qed.

Example list_name_wire :
  listed (findAll (byName "wire") twoProducts)
  = Some ([Some (VStr "Wireless Mouse")], 1%Z, 1%Z, false, false).
Proof. vm_compute. reflexivity. Qed.

Example list_name_mouse :
  listed (findAll (byName "mouse") twoProducts) = Some ([], 0%Z, 0%Z, false, false).
Proof. vm_compute. reflexivity. Qed.


(** [findAll({ sortBy: "" })] *)
Definition byNothing : QueryProductDto :=
  mkQueryProductDto None None None None None None (Some "") None.


(** With an empty [sortBy] the adapter adds no [orderBy] ([if (sortBy)]):
    the page is in the order of the document ids, here not that of the
    names. *)
Example list_by_nothing_is_in_id_order :
  listed (findAll byNothing twoProducts)
  = Some ([Some (VStr "Wireless Mouse"); Some (VStr "Keyboard")], 2%Z, 1%Z, false, false).
Proof. vm_compute. reflexivity. Qed.

(** ** The theorems at concrete inputs *)


Lemma twoProducts_shaped : catalog_shaped twoProducts.
Proof. apply serve_all_shaped. unfold catalog_shaped. apply map_Forall_empty. Qed.


Definition pageZero : QueryProductDto :=
  mkQueryProductDto (Some 0%Z) None None None None None None None.
Definition pageSize101 : QueryProductDto :=
  mkQueryProductDto None (Some 101%Z) None None None None None None.
Definition pageSize100 : QueryProductDto :=
  mkQueryProductDto None (Some 100%Z) None None None None None None.

Lemma invalid_pagination_witness :
  findAll pageZero twoProducts = (Throw (BadRequestException invalidPagination), twoProducts)
  ∧ findAll pageSize101 twoProducts
    = (Throw (BadRequestException invalidPagination), twoProducts)
  ∧ ∃ r fs', findAll pageSize100 twoProducts = (Ok r, fs') ∧ limit r = 100%Z.
Proof.
  split; [|split].
  - apply (invalid_pagination_rejected_before_store pageZero twoProducts).
    left. vm_compute. reflexivity.
  - apply (invalid_pagination_rejected_before_store pageSize101 twoProducts).
    right. right. vm_compute. reflexivity.
  - apply (invalid_pagination_rejected_before_store pageSize100 twoProducts).
    + vm_compute. discriminate.
    + reflexivity.
Defined.

Lemma missing_id_witness :
  products twoProducts !! "7" = None
  ∧ remove "7" twoProducts
    = (Throw (NotFoundException "Product with ID 7 not found"),
       logged twoProducts [DocGet "products" "7"]).
Proof.
  assert (products twoProducts !! "7" = None) as Hid by (vm_compute; reflexivity).
  split; [exact Hid|].
  apply (missing_id_fails_before_any_write "7" twoProducts Hid).
Defined.

Definition renameToWired : UpdateProductDto :=
  mkUpdateProductDto None (Some "Wired Mouse") None None None None.

Definition someRequests : list Request :=
  [ReqCreate wirelessMouse; ReqUpdate "0" renameToWired; ReqFindOne "0";
   ReqCreate keyboard; ReqRemove "1"].

Example someRequests_fresh :
  Forall plain someRequests
  ∧ catalog_fresh emptyStore
  ∧ catalog_fresh (serve_all someRequests emptyStore).
Proof.
  assert (Forall plain someRequests) as Hv.
  { repeat constructor. simpl. discriminate. }
  assert (catalog_fresh emptyStore) as Hfs.
  { unfold catalog_fresh. apply map_Forall_empty. }
  split; [exact Hv|]. split; [exact Hfs|].
  apply (fresh_over_plain_requests someRequests emptyStore Hv Hfs).
Qed.

Lemma twoProducts_mouse :
  products twoProducts !! "0" = Some (storedOnCreate wirelessMouse).
Proof. vm_compute. exact eq_refl. Qed.

(** [update("0", { name: "" })] *)
Definition blankName : UpdateProductDto :=
  mkUpdateProductDto None (Some "") None None None None.

Lemma nameSearch_goes_stale_witness :
  products twoProducts !! "0" = Some (storedOnCreate wirelessMouse)
  ∧ ∃ view fs' stored,
      update "0" blankName twoProducts = (Ok view, fs')
      ∧ products fs' !! "0" = Some stored
      ∧ stored !! "name" = Some (VStr "")
      ∧ stored !! "nameSearch" = Some (VStr "wireless mouse")
      ∧ ¬ catalog_fresh fs'.
Proof.
  pose proof twoProducts_mouse as Hid.
  split; [exact Hid|].
  assert (storedOnCreate wirelessMouse !! "name" = Some (VStr "Wireless Mouse"))
    as Hname by (vm_compute; reflexivity).
  assert (storedOnCreate wirelessMouse !! "nameSearch"
          = Some (VStr (toLowerCase "Wireless Mouse")))
    as Hsearch by (vm_compute; reflexivity).
  assert (toLowerCase "Wireless Mouse" ≠ toLowerCase "") as Hlower
    by (vm_compute; discriminate).
  destruct (nameSearch_goes_stale "0" blankName _ "Wireless Mouse" twoProducts
              Hid Hname Hsearch Hlower eq_refl eq_refl)
    as (view & fs' & stored & Hu & Hstored & Hn & Hs & _ & Hstale).
  exists view, fs', stored.
  split; [exact Hu|]. split; [exact Hstored|]. split; [exact Hn|].
  split; [exact Hs|exact Hstale].
Defined.

(** The failing input of C5, run: after the product is created and its
    name is updated to the empty string, the store holds the empty name
    with the search field of the old name. *)
Example stale_after_blank_name :
  (λ d : option Doc, (d ≫= (.!! "name"), d ≫= (.!! "nameSearch")))
    (products (serve_all [ReqCreate wirelessMouse; ReqUpdate "0" blankName] emptyStore)
       !! "0")
  = (Some (VStr ""), Some (VStr "wireless mouse")).
Proof. vm_compute. reflexivity. Qed.

Definition priceOnly : UpdateProductDto :=
  mkUpdateProductDto None None None (Some 2499%Z) None None.

(** [update("0", { description: ..., stock: 12, category: "Others" })] *)
Definition restock : UpdateProductDto :=
  mkUpdateProductDto None None (Some "A mouse, restocked") None (Some 12%Z)
    (Some "Others").

Lemma wirelessMouse_stored :
  storedOnCreate wirelessMouse !! "name" = Some (VStr "Wireless Mouse")
  ∧ storedOnCreate wirelessMouse !! "price" = Some (VNum 1999)
  ∧ storedOnCreate wirelessMouse !! "nameSearch" = Some (VStr "wireless mouse").
Proof. repeat split; vm_compute; reflexivity. Qed.

Lemma update_witness :
  products twoProducts !! "0" = Some (storedOnCreate wirelessMouse)
  ∧ (∃ view fs' new,
       update "0" priceOnly twoProducts = (Ok view, fs')
       ∧ products fs' !! "0" = Some new
       ∧ new !! "price" = Some (VNum 2499)
       ∧ new !! "name" = Some (VStr "Wireless Mouse"))
  ∧ (∃ view fs' new,
       update "0" restock twoProducts = (Ok view, fs')
       ∧ products fs' !! "0" = Some new
       ∧ new !! "description" = Some (VStr "A mouse, restocked")
       ∧ new !! "stock" = Some (VNum 12)
       ∧ new !! "category" = Some (VStr "Others")
       ∧ new !! "price" = Some (VNum 1999)
       ∧ view !! "description" = Some (VStr "A mouse, restocked")
       ∧ view !! "stock" = Some (VNum 12)
       ∧ view !! "category" = Some (VStr "Others")).
Proof.
  pose proof twoProducts_mouse as Hid.
  destruct wirelessMouse_stored as (Hname & Hprice & _).
  split; [exact Hid|]. split.
  - destruct (update_is_partial "0" priceOnly _ twoProducts Hid)
      as (view & fs' & new & Hu & Hnew & _ & _ & _ & Honly & _).
    exists view, fs', new. split; [exact Hu|]. split; [exact Hnew|].
    destruct (Honly 2499%Z eq_refl) as (Hp & Hn & _).
    split; [exact Hp|]. by rewrite Hn.
  - destruct (update_is_partial "0" restock _ twoProducts Hid)
      as (view & fs' & new & Hu & Hnew & (_ & Hd & Hp & Hs & Hc) & _ & _ & _ & _
          & (_ & Hvd & _ & Hvs & Hvc) & _).
    exists view, fs', new. split; [exact Hu|]. split; [exact Hnew|].
    split; [exact Hd|]. split; [exact Hs|]. split; [exact Hc|].
    split; [by rewrite Hp|].
    split; [exact Hvd|]. split; [exact Hvs|exact Hvc].
Defined.






(** The upper bound of the range is inclusive ([<=] in the adapter): a
    lowercase name that is exactly the filter followed by U+F8FF matches. *)
Example upper_bound_is_inclusive :
  name_filter_matches "sale"
    (storedOnCreate
       (mkCreateProductDto None ("Sale" ++ uf8ff) "A product at the bound" 100 1 "Others"))
  = true.
Proof. vm_compute. reflexivity. Qed.

(** Create then get, run: the product read back has the search field. *)
Example get_exposes_nameSearch :
  (λ r, match r with Ok d => d !! "nameSearch" | Throw _ => None end)
    (findOne "0" (serve_all [ReqCreate wirelessMouse] emptyStore)).1
  = Some (VStr "wireless mouse").
Proof. vm_compute. reflexivity. Qed.

Module AuthExamples.

Import Auth AuthProofs.

Definition config : ConfigService :=
  {[ "ADMIN1_PASSWORD" := "first-secret"; "ADMIN2_USERNAME" := "root";
     "ADMIN2_PASSWORD" := "second-secret" ]}.

Example login_admin1 :
  login (adminUsers config) "admin1" "first-secret"
  = Ok (mkLoginResponse "admin:admin1" "admin1").
Proof. vm_compute. reflexivity. Qed.

Example login_wrong_password :
  login (adminUsers config) "admin1" "second-secret" = Throw invalidCredentials.
Proof. vm_compute. reflexivity. Qed.

Example login_unknown_user :
  login (adminUsers config) "nobody" "first-secret" = Throw invalidCredentials.
Proof. vm_compute. reflexivity. Qed.

Lemma login_witness :
  credentials_match (adminUsers config) "root" "second-secret"
  ∧ login (adminUsers config) "root" "second-secret"
    = Ok (mkLoginResponse (sign (mkJwtPayload "root" true)) "root")
  ∧ ¬ credentials_match (adminUsers config) "root" "first-secret"
  ∧ login (adminUsers config) "root" "first-secret"
    = Throw (UnauthorizedException "Invalid credentials").
Proof.
  assert (credentials_match (adminUsers config) "root" "second-secret") as Hyes.
  { exists (mkAdminUser "root" "second-secret" true).
    split; [|by split]. apply list_elem_of_In. vm_compute. tauto. }
  assert (¬ credentials_match (adminUsers config) "root" "first-secret") as Hno.
  { intros (user & Hin & Hu & Hp). apply list_elem_of_In in Hin.
    vm_compute in Hin. destruct Hin as [<- | [<- | []]]; discriminate. }
  split; [exact Hyes|].
  split; [by apply (login_iff_credentials config "root" "second-secret")|].
  split; [exact Hno|].
  by apply (login_iff_credentials config "root" "first-secret").
Defined.

Definition protectedRoute (header : option string) : ExecutionContext :=
  mkExecutionContext None None header.
Definition publicRoute (header : option string) : ExecutionContext :=
  mkExecutionContext (Some true) None header.

Definition whoami (user : option JwtPayload) : Result string :=
  Ok (from_option jwt_username "anonymous" user).

Lemma guard_witness :
  handleRequest (publicRoute (Some "Bearer garbage")) whoami
    = (Ok "anonymous", [RunHandler])
  ∧ handleRequest (protectedRoute (Some "Bearer admin:root")) whoami
    = (Ok "root", [VerifyToken "admin:root"; AttachUser (mkJwtPayload "root" true);
                   RunHandler])
  ∧ ∃ events,
      handleRequest (protectedRoute (Some "Bearer garbage")) whoami
      = (Throw (UnauthorizedException "Unauthorized"), events)
      ∧ RunHandler ∉ events.
Proof.
  split; [|split].
  - destruct (guard_gates_handlers (publicRoute (Some "Bearer garbage")) whoami)
      as (_ & Hpublic & _).
    exact (Hpublic eq_refl).
  - destruct (guard_gates_handlers (protectedRoute (Some "Bearer admin:root")) whoami)
      as (_ & _ & Hvalid & _).
    exact (Hvalid eq_refl "admin:root" (mkJwtPayload "root" true) eq_refl eq_refl).
  - destruct (guard_gates_handlers (protectedRoute (Some "Bearer garbage")) whoami)
      as (_ & _ & _ & Hinvalid & _).
    apply (Hinvalid eq_refl). intros token [= <-]. reflexivity.
Defined.

End AuthExamples.


(** ** More of the catalog, at concrete inputs *)

Lemma emptyStore_next_id : products emptyStore !! autoId (products emptyStore) = None.
Proof. vm_compute. reflexivity. Qed.

Lemma create_adds_one_witness :
  products emptyStore !! autoId (products emptyStore) = None
  ∧ ∃ id created fs',
      create wirelessMouse emptyStore = (Ok created, fs')
      ∧ products fs' !! id = Some (storedOnCreate wirelessMouse)
      ∧ size (products fs') = 1.
Proof.
  split; [exact emptyStore_next_id|].
  destruct (create_adds_one wirelessMouse emptyStore emptyStore_next_id)
    as (id & created & fs' & Hc & _ & _ & Hnew & _ & Hsize & _).
  exists id, created, fs'. split; [exact Hc|]. split; [exact Hnew|]. exact Hsize.
Defined.

Lemma remove_is_final_witness :
  products twoProducts !! "0" = Some (storedOnCreate wirelessMouse)
  ∧ ∃ fs',
      remove "0" twoProducts = (Ok (mkDeleteResult "0" true), fs')
      ∧ products fs' !! "0" = None
      ∧ (findOne "0" fs').1 = Throw (NotFoundException "Product with ID 0 not found").
Proof.
  split; [exact twoProducts_mouse|].
  destruct (remove_is_final "0" _ twoProducts twoProducts_mouse)
    as (fs' & Hr & Hgone & _ & _ & Hfind & _).
  exists fs'. split; [exact Hr|]. split; [exact Hgone|]. exact Hfind.
Defined.

Lemma update_view_agrees_with_get_witness :
  products twoProducts !! "0" = Some (storedOnCreate wirelessMouse)
  ∧ ∃ view fs1 found fs2,
      update "0" restock twoProducts = (Ok view, fs1)
      ∧ findOne "0" fs1 = (Ok found, fs2)
      ∧ view !! "stock" = found !! "stock"
      ∧ found !! "description" = Some (VStr "A mouse, restocked")
      ∧ found !! "stock" = Some (VNum 12)
      ∧ found !! "category" = Some (VStr "Others")
      ∧ found !! "price" = Some (VNum 1999).
Proof.
  split; [exact twoProducts_mouse|].
  destruct wirelessMouse_stored as (_ & Hprice & _).
  destruct (update_view_agrees_with_get "0" restock _ twoProducts twoProducts_mouse)
    as (view & fs1 & found & fs2 & Hu & Hf & Hsame & (_ & Hd & Hp & Hs & Hc) & _).
  exists view, fs1, found, fs2. split; [exact Hu|]. split; [exact Hf|].
  split; [apply Hsame; left; discriminate|].
  split; [exact Hd|]. split; [exact Hs|]. split; [exact Hc|]. by rewrite Hp.
Defined.

Lemma update_twice_witness :
  products twoProducts !! "0" = Some (storedOnCreate wirelessMouse)
  ∧ fs_collections (update "0" renameToWired (update "0" renameToWired twoProducts).2).2
    = fs_collections (update "0" renameToWired twoProducts).2.
Proof.
  split; [exact twoProducts_mouse|].
  exact (update_twice "0" renameToWired _ twoProducts twoProducts_mouse).
Defined.

Definition firstOfOne : QueryOptions :=
  mkQueryOptions (Some 1%Z) (Some 1%Z) None (Some "price") (Some DESC).

Lemma firstOfOne_valid :
  (1 ≤ optionsPage firstOfOne ∧ 1 ≤ optionsLimit firstOfOne ≤ 100)%Z.
Proof. vm_compute. intuition discriminate. Qed.

Lemma page_within_total_witness :
  (1 ≤ optionsPage firstOfOne ∧ 1 ≤ optionsLimit firstOfOne ≤ 100)%Z
  ∧ ∃ r fs',
      getCollectionWithOptions "products" firstOfOne twoProducts = (Ok r, fs')
      ∧ (Z.of_nat (length (qp_items r)) ≤ optionsLimit firstOfOne)%Z
      ∧ (Z.of_nat (length (qp_items r)) ≤ qp_total r)%Z.
Proof.
  split; [exact firstOfOne_valid|].
  destruct (page_within_total "products" firstOfOne twoProducts firstOfOne_valid)
    as (r & fs' & Hr & _ & Hlimit & Htotal & _).
  exists r, fs'. split; [exact Hr|]. split; [exact Hlimit|exact Htotal].
Defined.

Definition onePerPage : QueryProductDto :=
  mkQueryProductDto (Some 1%Z) (Some 1%Z) None None None None (Some "price") (Some DESC).

Lemma onePerPage_valid : valid_pagination onePerPage.
Proof. vm_compute. intuition discriminate. Qed.

Lemma onePerPage_limit : (1 ≤ limitOf onePerPage ≤ 100)%Z.
Proof. vm_compute. intuition discriminate. Qed.

Lemma onePerPage_sortable : sortable onePerPage twoProducts.
Proof.
  apply sortable_catalog; [|apply twoProducts_shaped].
  unfold known_sort_field. vm_compute. apply list_elem_of_In. simpl. tauto.
Qed.

Lemma page_sizes_witness :
  valid_pagination onePerPage ∧ sortable onePerPage twoProducts
  ∧ ∃ r fs',
      findAll onePerPage twoProducts = (Ok r, fs')
      ∧ (hasNextPage r = true ↔ (pageOf onePerPage * limitOf onePerPage < total r)%Z)
      ∧ (items r ≠ [] ↔ (pageOf onePerPage ≤ totalPages r)%Z).
Proof.
  split; [exact onePerPage_valid|]. split; [exact onePerPage_sortable|].
  destruct (page_sizes onePerPage twoProducts onePerPage_valid onePerPage_sortable)
    as (r & fs' & Hr & _ & Hitems & Hnext & _).
  exists r, fs'. split; [exact Hr|]. split; [exact Hnext|exact Hitems].
Defined.

Lemma pages_tile_the_result_witness :
  (1 ≤ limitOf onePerPage ≤ 100)%Z ∧ sortable onePerPage twoProducts
  ∧ concat (page_items onePerPage twoProducts
              <$> seq 1 (Z.to_nat (Math_ceil_div
                                     (Z.of_nat (length (matching onePerPage twoProducts)))
                                     (limitOf onePerPage))))
    = withId <$> ordered onePerPage twoProducts.
Proof.
  split; [exact onePerPage_limit|]. split; [exact onePerPage_sortable|].
  exact (proj2 (pages_tile_the_result onePerPage twoProducts
                  onePerPage_limit onePerPage_sortable)).
Defined.

Example pages_of_one :
  names <$> (page_items onePerPage twoProducts <$> seq 1 3)
  = [[Some (VStr "Keyboard")]; [Some (VStr "Wireless Mouse")]; []].
Proof. vm_compute. reflexivity. Qed.

Definition midRange : QueryProductDto :=
  mkQueryProductDto None None None (Some "Electronics")
    (Some 2000%Z) (Some 4999%Z) None None.

Lemma midRange_valid : valid_pagination midRange.
Proof. vm_compute. intuition discriminate. Qed.

Lemma filters_only_narrow_witness :
  valid_pagination midRange
  ∧ (0 ≤ total_for midRange twoProducts ≤ Z.of_nat (size (products twoProducts)))%Z
  ∧ (total_for midRange twoProducts
     ≤ total_for (priced midRange (Some 0%Z) (Some 4999%Z)) twoProducts)%Z.
Proof.
  split; [exact midRange_valid|].
  destruct (filters_only_narrow midRange twoProducts midRange_valid)
    as (Hbound & _ & Hwiden & _).
  split; [exact Hbound|].
  apply (Hwiden 2000%Z 4999%Z 0%Z 4999%Z eq_refl eq_refl); discriminate.
Defined.

Example totals_by_price_range :
  (total_for midRange twoProducts,
   total_for (priced midRange (Some 0%Z) (Some 4999%Z)) twoProducts,
   total_for (unfiltered midRange) twoProducts)
  = (1%Z, 2%Z, 2%Z).
Proof. vm_compute. reflexivity. Qed.

Definition upsideDown : QueryProductDto :=
  mkQueryProductDto None None None None (Some 5000%Z) (Some 100%Z) None None.

Lemma upsideDown_valid : valid_pagination upsideDown.
Proof. vm_compute. intuition discriminate. Qed.

Lemma empty_price_range_witness :
  valid_pagination upsideDown
  ∧ ∃ r fs', findAll upsideDown twoProducts = (Ok r, fs') ∧ items r = [] ∧ total r = 0%Z.
Proof.
  split; [exact upsideDown_valid|].
  destruct (empty_price_range upsideDown 5000%Z 100%Z twoProducts upsideDown_valid
              eq_refl eq_refl eq_refl)
    as (r & fs' & Hr & Hitems & Htotal & _).
  exists r, fs'. split; [exact Hr|]. split; [exact Hitems|exact Htotal].
Defined.

(** ** The logs, at concrete inputs *)

Module LoggingExamples.

Import Logging LoggingProofs HttpFilter HttpFilterProofs.

(** A host with no file yet, on which nothing is denied, and whose clock
    stands still. *)
Definition quietHost : Host :=
  mkHost ∅ ∅ ∅ [] (λ _, "2024-05-01T10:00:00.000Z") 0.

(** The service the constructor makes on that host. *)
Definition logger : LoggingService :=
  mkLoggingService "logs/app-2024-05-01.log" "logs/error-2024-05-01.log"
    "logs/access-2024-05-01.log" "Application".

Example constructor_on_quietHost :
  (Logging.constructor quietHost).1 = Ok logger
  ∧ dirs (Logging.constructor quietHost).2 = {[ "logs" ]} ∪ ∅.
Proof. split; reflexivity. Qed.

Lemma logger_files :
  logFile logger ≠ errorLogFile logger ∧ accessLogFile logger ≠ errorLogFile logger.
Proof. split; discriminate. Qed.

Lemma error_goes_to_both_logs_witness :
  logFile logger ≠ errorLogFile logger
  ∧ content (error logger "boom" (Some "at main") None quietHost).2 (logFile logger)
    = content (error logger "boom" (Some "at main") None quietHost).2
        (errorLogFile logger)
  ∧ content (error logger "boom" (Some "at main") None quietHost).2 (logFile logger)
    = "2024-05-01T10:00:00.000Z ERROR boom" ++ LF ++ "at main" ++ LF.
Proof.
  pose proof (proj1 logger_files) as Hne.
  split; [exact Hne|].
  destruct (error_goes_to_both_logs logger "boom" (Some "at main") None quietHost
              Hne eq_refl eq_refl)
    as (Hlog & Herr & _).
  split.
  - rewrite Hlog, Herr. reflexivity.
  - rewrite Hlog. reflexivity.
Defined.

Definition getMissing : HttpRequest :=
  mkHttpRequest "GET" "/products/7" "/products/7" (Some "127.0.0.1") (Some "curl/8.0").

Lemma logRequest_routes_by_status_witness :
  accessLogFile logger ≠ errorLogFile logger
  ∧ ∃ line,
      content (logRequest logger getMissing 404 3 quietHost).2 (accessLogFile logger)
      = line ++ LF
      ∧ content (logRequest logger getMissing 404 3 quietHost).2 (errorLogFile logger)
        = line ++ LF
      ∧ files (logRequest logger getMissing 404 3 quietHost).2 !! logFile logger = None.
Proof.
  pose proof (proj2 logger_files) as Hne.
  split; [exact Hne|].
  destruct (logRequest_routes_by_status logger getMissing 404 3 quietHost
              Hne eq_refl eq_refl)
    as (line & Hacc & Herr & _ & Hother & _).
  exists line. split; [exact Hacc|]. split.
  - apply Herr. discriminate.
  - rewrite Hother by discriminate. reflexivity.
Defined.

Example access_log_line :
  content (logRequest logger getMissing 404 3 quietHost).2 (accessLogFile logger)
  = "2024-05-01T10:00:00.000Z INFO [HTTP] GET /products/7 404 3ms - 127.0.0.1 - curl/8.0"
    ++ LF.
Proof. vm_compute. reflexivity. Qed.

Definition noStack : Exception → option string := λ _, None.

(** A value thrown with status 503 and a stack. *)
Definition unavailable : Thrown :=
  mkThrown (Some 503%Z) (Some "Service Unavailable") (Some "at connect").

(** A redirect thrown as an exception: [new HttpException('Found', 302)]. *)
Definition redirect : Thrown := mkThrown (Some 302%Z) (Some "Found") None.

(** A thrown value that is no error object: [throw 'oops']. *)
Definition thrownString : Thrown := mkThrown None None None.

Lemma filter_answers_and_logs_witness :
  logFile logger ≠ errorLogFile logger
  ∧ ∃ body h',
      catch logger unavailable getMissing quietHost = ((503%Z, body), h')
      ∧ body_message body = "Service Unavailable"
      ∧ content h' (logFile logger) = content h' (errorLogFile logger)
      ∧ content h' (logFile logger) ≠ "".
Proof.
  pose proof (proj1 logger_files) as Hne.
  split; [exact Hne|].
  destruct (filter_answers_and_logs logger unavailable getMissing quietHost
              Hne eq_refl eq_refl)
    as (body & h' & Hcatch & _ & _ & _ & _ & Hmessage & _ & Herror & _).
  exists body, h'. split; [exact Hcatch|].
  split; [apply (Hmessage _ eq_refl); discriminate|].
  destruct (Herror ltac:(discriminate)) as (entry & _ & Hlog & Herr & _).
  split; [rewrite Hlog, Herr; reflexivity|].
  rewrite Hlog. change (content quietHost (logFile logger)) with "".
  destruct entry; discriminate.
Defined.

Example filter_answers :
  (catch logger unavailable getMissing quietHost).1
  = (503%Z, mkResponseBody 503 "2024-05-01T10:00:00.000Z" "/products/7" "GET"
              "Service Unavailable")
  ∧ content (catch logger unavailable getMissing quietHost).2 (errorLogFile logger)
    = "2024-05-01T10:00:00.000Z ERROR [ExceptionFilter] [GET] /products/7 - 503 - Service Unavailable"
      ++ LF ++ "at connect" ++ LF
  ∧ (catch logger redirect getMissing quietHost).1
    = (302%Z, mkResponseBody 302 "2024-05-01T10:00:00.000Z" "/products/7" "GET" "Found")
  ∧ files (catch logger redirect getMissing quietHost).2 = ∅
  ∧ console (catch logger redirect getMissing quietHost).2 = []
  ∧ (catch logger thrownString getMissing quietHost).1
    = (500%Z, mkResponseBody 500 "2024-05-01T10:00:00.000Z" "/products/7" "GET"
                "Internal server error")
  ∧ thrown_message (thrownOf noStack (NotFoundException "")) = Some "Not Found".
Proof. repeat split; vm_compute; reflexivity. Qed.



Example missing_product_answer :
  (catch logger (thrownOf noStack (productNotFound "7")) getMissing quietHost).1
  = (404%Z, mkResponseBody 404 "2024-05-01T10:00:00.000Z" "/products/7" "GET"
              "Product with ID 7 not found")
  ∧ content (catch logger (thrownOf noStack (productNotFound "7")) getMissing
               quietHost).2
      (logFile logger)
    = "2024-05-01T10:00:00.000Z WARN [ExceptionFilter] [GET] /products/7 - 404 - Product with ID 7 not found"
      ++ LF.
Proof. split; vm_compute; reflexivity. Qed.

Lemma unset_password_admits_empty_witness :
  (∅ : Auth.ConfigService) !! "ADMIN1_PASSWORD" = None
  ∧ Auth.login (Auth.adminUsers ∅) "admin1" ""
    = Ok (Auth.mkLoginResponse "admin:admin1" "admin1").
Proof.
  assert ((∅ : Auth.ConfigService) !! "ADMIN1_PASSWORD" = None) as Hunset
    by reflexivity.
  split; [exact Hunset|].
  destruct (AuthLoggingProofs.unset_password_admits_empty logger ∅ quietHost
              (or_introl Hunset))
    as (h' & _ & _ & Hlogin & _).
  exact Hlogin.
Defined.

End LoggingExamples.
